(** * Messager: a typed publish-subscribe registry (messager.py)

    A shallow embedding of the [Messager] class: the routing table
    [subscribers] (type -> token -> set of callables), the global identity
    set [subscriberSet], the subscribe/unsubscribe operations, the two
    dispatch loops [publish] and [batch_publish], and the singleton
    construction protocol of [__new__]/[__init__]. *)

From stdpp Require Import gmap strings list fin_maps countable.

Set Default Proof Using "Type".
#[local] Set Warnings "-clear-no-such-hyp".

(** ** Python values seen by the registry *)

(** A routing key: the class of a message ([type(message)]) or the
    annotation found on a handler parameter.  Both are compared with [==]
    and hashed as dictionary keys; a class is represented by its name. *)
Definition pytype := string.

(** A key of the per-type dictionaries: a hashable token; [None] is the
    default of every [token=None] argument. *)
Definition token := option string.

(** What a caller can pass as [token]: the parameter is declared
    [object], so the value is either hashable, and then usable as a key, or
    an unhashable object such as a list, on which every dictionary access
    raises [TypeError]. *)
Inductive token_arg :=
  | Hashable (k : option string)
  | Unhashable (ident : nat).

#[warnings="-uniform-inheritance"]
Coercion Hashable : option >-> token_arg.

(** Message values.  [type_of] is Python's [type(message)]: the concrete
    class, so [True] has type [bool] although [bool] is a subclass of
    [int]. *)
Inductive message :=
  | VStr (s : string)
  | VInt (z : Z)
  | VBool (b : bool)
  | VNone
  | VObject (cls : pytype) (ident : nat).

Definition type_of (m : message) : pytype :=
  match m with
  | VStr _ => "str"
  | VInt _ => "int"
  | VBool _ => "bool"
  | VNone => "NoneType"
  | VObject cls _ => cls
  end.

(** [inspect.signature(f).parameters], reduced to what the registry reads:
    one entry per parameter, holding its annotation, or [None] for
    [inspect.Parameter.empty]. *)
Definition parameters := list (option pytype).

(** An object implementing [IReceiver]: its identity, its [token]
    attribute when it has one ([hasattr(receiver, "token")]), and the
    signature of its bound [receive] method (without [self]).  Receivers
    hash by identity. *)
Record receiver := Receiver {
  receiver_id : nat;
  token_attr : option token_arg;
  receive_parameters : parameters;
  receive_is_coroutine : bool
}.

(** Callables handed to [subscribe] or stored in a bucket, all hashed by
    identity:
    - a function object ([def], [async def] or [lambda]); a bound method
      of an object that is no subscribed receiver behaves as one;
    - the bound method [r.receive]; two accesses [r.receive] give equal
      (and equally hashed) bound methods, so the bound method is determined
      by its receiver;
    - a [functools.partial] object, whose signature is that of the
      parameters left open;
    - an instance of a class that defines [__call__] ([def] or
      [async def]), whose signature is that of [__call__] without [self].
    The first two carry a [__name__] attribute, the last two do not. *)
Inductive callable :=
  | Function (ident : nat) (params : parameters) (is_coroutine : bool)
  | BoundReceive (r : receiver)
  | Partial (ident : nat) (params : parameters) (is_coroutine : bool)
  | CallableObject (ident : nat) (params : parameters)
      (call_is_coroutine : bool).

Definition receive (r : receiver) : callable := BoundReceive r.

Definition signature (c : callable) : parameters :=
  match c with
  | Function _ params _ => params
  | BoundReceive r => receive_parameters r
  | Partial _ params _ => params
  | CallableObject _ params _ => params
  end.

(** [asyncio.iscoroutinefunction]: it looks through a bound method and
    through a [functools.partial] to the function underneath, and answers
    [False] for an instance, whatever its [__call__] is. *)
Definition iscoroutinefunction (c : callable) : bool :=
  match c with
  | Function _ _ co => co
  | BoundReceive r => receive_is_coroutine r
  | Partial _ _ co => co
  | CallableObject _ _ _ => false
  end.

(** Whether the call [c(message)] only makes a coroutine object, the body
    running when the coroutine is driven: so for [async def]. *)
Definition returns_coroutine (c : callable) : bool :=
  match c with
  | Function _ _ co => co
  | BoundReceive r => receive_is_coroutine r
  | Partial _ _ co => co
  | CallableObject _ _ co => co
  end.

(** [hasattr(c, "__name__")] *)
Definition has_name (c : callable) : bool :=
  match c with
  | Function _ _ _ | BoundReceive _ => true
  | Partial _ _ _ | CallableObject _ _ _ => false
  end.

(** Members of [subscriberSet]: [subscribe] adds the callable itself,
    [subscribeReceiver] adds the receiver object (not its bound method). *)
Inductive pyobject :=
  | ObjCallable (c : callable)
  | ObjReceiver (r : receiver).

#[global] Instance message_eq_dec : EqDecision message.
Proof. solve_decision. Defined.
#[global] Instance token_arg_eq_dec : EqDecision token_arg.
Proof. solve_decision. Defined.
#[global] Instance receiver_eq_dec : EqDecision receiver.
Proof. solve_decision. Defined.
#[global] Instance callable_eq_dec : EqDecision callable.
Proof. solve_decision. Defined.
#[global] Instance pyobject_eq_dec : EqDecision pyobject.
Proof. solve_decision. Defined.

#[global] Instance token_arg_countable : Countable token_arg.
Proof.
  refine (inj_countable'
    (fun t => match t with Hashable k => inl k | Unhashable i => inr i end)
    (fun s => match s with inl k => Hashable k | inr i => Unhashable i end)
    _).
  by intros [].
Defined.

#[global] Instance receiver_countable : Countable receiver.
Proof.
  refine (inj_countable'
    (fun r => (receiver_id r, token_attr r, receive_parameters r,
               receive_is_coroutine r))
    (fun t => match t with (i, tk, ps, co) => Receiver i tk ps co end) _).
  by intros [].
Defined.

#[global] Instance callable_countable : Countable callable.
Proof.
  refine (inj_countable'
    (fun c => match c with
              | Function i ps co => inl (inl (i, ps, co))
              | BoundReceive r => inl (inr r)
              | Partial i ps co => inr (inl (i, ps, co))
              | CallableObject i ps co => inr (inr (i, ps, co))
              end)
    (fun s => match s with
              | inl (inl (i, ps, co)) => Function i ps co
              | inl (inr r) => BoundReceive r
              | inr (inl (i, ps, co)) => Partial i ps co
              | inr (inr (i, ps, co)) => CallableObject i ps co
              end) _).
  by intros [].
Defined.

#[global] Instance pyobject_countable : Countable pyobject.
Proof.
  refine (inj_countable'
    (fun o => match o with ObjCallable c => inl c | ObjReceiver r => inr r end)
    (fun s => match s with inl c => ObjCallable c | inr r => ObjReceiver r end)
    _).
  by intros [].
Defined.

(** ** Exceptions *)

(** The four [raise ValueError(...)] sites of the module, by message. *)
Inductive value_error :=
  | SubscriberExists      (* subscribe: "订阅者函数 ... 已存在" *)
  | ReceiverExists        (* subscribeReceiver: "接收者实例 ... 已存在" *)
  | NotOneParameter       (* _get_parameter_type: len(parameters) != 1 *)
  | NoAnnotation.         (* _get_parameter_type: annotation is empty *)

(** Exceptions that travel through the registry: its own [ValueError]s, and
    whatever else is raised, by name of the class: by the interpreter inside
    a method ([AttributeError], [TypeError]), by a handler, or by the
    asyncio call made for it. *)
Inductive exception :=
  | ValueError (why : value_error)
  | Raised (name : string).

Inductive result (A : Type) :=
  | Ok (a : A)
  | Raise (e : exception).
Arguments Ok {A} a.
Arguments Raise {A} e.

(** ** The registry object *)

Record Messager := MkMessager {
  subscribers : gmap pytype (gmap token (gset callable));
  subscriberSet : gset pyobject
}.

(** State after [__init__] ran on a fresh instance. *)
Definition fresh_messager : Messager := MkMessager ∅ ∅.

(** Methods run on [self] and either return or raise; in both cases the
    attributes of [self] are what the statements executed so far made
    them. *)
Definition M (A : Type) : Type := Messager -> Messager * result A.

Definition ret {A} (a : A) : M A := fun self => (self, Ok a).
Definition raise {A} (e : exception) : M A := fun self => (self, Raise e).
Definition bind {A B} (c : M A) (k : A -> M B) : M B :=
  fun self =>
    match c self with
    | (self', Ok a) => k a self'
    | (self', Raise e) => (self', Raise e)
    end.
Definition gets {A} (f : Messager -> A) : M A := fun self => (self, Ok (f self)).
Definition modify (f : Messager -> Messager) : M unit :=
  fun self => (f self, Ok tt).
Definition when (b : bool) (c : M unit) : M unit := if b then c else ret tt.

#[global] Instance M_ret : MRet M := @ret.
#[global] Instance M_bind : MBind M := fun A B k c => bind c k.

(** ** Dictionary accesses *)

(** [key in d] for a dictionary. *)
Definition has_key `{Countable K} {V} (k : K) (d : gmap K V) : bool :=
  bool_decide (is_Some (d !! k)).

(** [self.subscribers.get(ty, {})]; also [self.subscribers[ty]] where the
    key is known to be present. *)
Definition by_token (self : Messager) (ty : pytype) : gmap token (gset callable) :=
  default ∅ (subscribers self !! ty).

(** [self.subscribers.get(ty, {}).get(tok, set())]: the bucket of handlers
    registered for type [ty] under token [tok]. *)
Definition bucket (self : Messager) (ty : pytype) (tok : token) : gset callable :=
  default ∅ (by_token self ty !! tok).

(** The same lookup with the token as the caller passed it:
    [dict.get] hashes its key, found or not, so an unhashable token raises
    [TypeError]. *)
Definition get_bucket (self : Messager) (ty : pytype) (tok : token_arg)
    : result (gset callable) :=
  match tok with
  | Hashable tok => Ok (bucket self ty tok)
  | Unhashable _ => Raise (Raised "TypeError")
  end.

(** [self.subscribers[ty] = d] *)
Definition set_by_token (ty : pytype) (d : gmap token (gset callable))
    (self : Messager) : Messager :=
  MkMessager (<[ty := d]> (subscribers self)) (subscriberSet self).

(** [self.subscribers[ty][tok] = b], and in-place updates of the set object
    stored there. *)
Definition set_bucket (ty : pytype) (tok : token) (b : gset callable)
    (self : Messager) : Messager :=
  set_by_token ty (<[tok := b]> (by_token self ty)) self.

Definition set_subscriberSet (s : gset pyobject) (self : Messager) : Messager :=
  MkMessager (subscribers self) s.

(** ** Methods of [Messager] *)

Definition _get_parameter_type (subscriber : callable) : M pytype :=
  let parameters := signature subscriber in
  if negb (length parameters =? 1) then raise (ValueError NotOneParameter)
  else
    match parameters with
    | [] => raise (Raised "StopIteration")
    | first_param :: _ =>
        match first_param with
        | None => raise (ValueError NoAnnotation)
        | Some parameter_type => mret parameter_type
        end
    end.

(** The message of the [ValueError] of a repeated subscription is built
    from [subscriber.__name__] before the exception is raised; reading the
    attribute raises [AttributeError] where there is none.  The test
    [token not in self.subscribers[parameter_type]] hashes the token, so an
    unhashable one raises [TypeError] there, after the dictionary of the
    type was stored. *)
Definition subscribe (subscriber : callable) (tok : token_arg) : M unit :=
  present ← gets (fun self =>
    bool_decide (ObjCallable subscriber ∈ subscriberSet self));
  if (present : bool) then
    if has_name subscriber then raise (ValueError SubscriberExists)
    else raise (Raised "AttributeError")
  else
    parameter_type ← _get_parameter_type subscriber;
    known ← gets (fun self => has_key parameter_type (subscribers self));
    when (negb known) (modify (set_by_token parameter_type ∅));;
    match tok with
    | Unhashable _ => raise (Raised "TypeError")
    | Hashable tok =>
        grouped ← gets (fun self => has_key tok (by_token self parameter_type));
        when (negb grouped) (modify (set_bucket parameter_type tok ∅));;
        modify (fun self =>
          set_subscriberSet (subscriberSet self ∪ {[ObjCallable subscriber]})
            self);;
        modify (fun self =>
          set_bucket parameter_type tok
            (bucket self parameter_type tok ∪ {[subscriber]}) self)
    end.

(** Here the message is built from [receiver.__class__.__name__], which
    every object has. *)
Definition subscribeReceiver (r : receiver) : M unit :=
  present ← gets (fun self =>
    bool_decide (ObjReceiver r ∈ subscriberSet self));
  if (present : bool) then raise (ValueError ReceiverExists)
  else
    parameter_type ← _get_parameter_type (receive r);
    known ← gets (fun self => has_key parameter_type (subscribers self));
    when (negb known) (modify (set_by_token parameter_type ∅));;
    let tok : token_arg :=
      match token_attr r with Some t => t | None => None end in
    match tok with
    | Unhashable _ => raise (Raised "TypeError")
    | Hashable tok =>
        grouped ← gets (fun self => has_key tok (by_token self parameter_type));
        when (negb grouped) (modify (set_bucket parameter_type tok ∅));;
        modify (fun self =>
          set_subscriberSet (subscriberSet self ∪ {[ObjReceiver r]}) self);;
        modify (fun self =>
          set_bucket parameter_type tok
            (bucket self parameter_type tok ∪ {[receive r]}) self)
    end.

(** The loop of [unsubscribe]:
    [for _, subscribers in self.subscribers[ty].items():
       if subscriber in subscribers: subscribers.discard(subscriber)]. *)
Definition discard_everywhere (subscriber : callable)
    (d : gmap token (gset callable)) : gmap token (gset callable) :=
  (fun b : gset callable =>
     if bool_decide (subscriber ∈ b) then b ∖ {[subscriber]} else b) <$> d.

Definition unsubscribe (subscriber : callable) : M unit :=
  parameter_type ← _get_parameter_type subscriber;
  known ← gets (fun self => has_key parameter_type (subscribers self));
  when known (modify (fun self =>
    set_by_token parameter_type
      (discard_everywhere subscriber (by_token self parameter_type)) self));;
  modify (fun self =>
    set_subscriberSet (subscriberSet self ∖ {[ObjCallable subscriber]}) self).

Definition unsubscribeReceiver (r : receiver) : M unit :=
  parameter_type ← _get_parameter_type (receive r);
  known ← gets (fun self => has_key parameter_type (subscribers self));
  when known (modify (fun self =>
    set_by_token parameter_type
      (discard_everywhere (receive r) (by_token self parameter_type)) self));;
  modify (fun self =>
    set_subscriberSet (subscriberSet self ∖ {[ObjReceiver r]}) self).

(** ** Dispatch *)

(** How a handler is started: called inline ([subscriber(message)]), driven
    on a private event loop ([loop.run_until_complete(subscriber(message))],
    the loop closed in [finally]), or handed to
    [asyncio.create_task(subscriber(msg))]. *)
Inductive mode := Inline | RunUntilComplete | CreateTask.

(** One evaluation of [subscriber(message)] made by a dispatch loop. *)
Definition call : Type := callable * message.

(** [message_groups[type(msg)].append(msg)] on an insertion-ordered
    dictionary of lists. *)
Fixpoint append_to_group (ty : pytype) (msg : message)
    (groups : list (pytype * list message)) : list (pytype * list message) :=
  match groups with
  | [] => [(ty, [msg])]
  | (ty', msgs) :: rest =>
      if decide (ty' = ty) then (ty', msgs ++ [msg]) :: rest
      else (ty', msgs) :: append_to_group ty msg rest
  end.

Definition group_messages (messages : list message)
    : list (pytype * list message) :=
  foldl (fun groups msg => append_to_group (type_of msg) msg groups) [] messages.

Section Dispatch.
(** Everything outside the registry that a handler can read or change. *)
Context {World : Type}.

(** The program state a handler runs in.  A handler may itself call into
    the registry, so the registry is part of it. *)
Record State := MkState { messager : Messager; world : World }.

(** Result of a dispatch loop: the state it left, the calls it made in
    order, and the exception that ended it, if any. *)
Record outcome := MkOutcome {
  final : State;
  calls : list call;
  raised : option exception
}.

(** What starting [subscriber] on [message] in a given mode does: the new
    state, and the exception raised, if any.  The handlers and asyncio are
    not part of the module. *)
Variable invoke : mode -> callable -> message -> State -> State * option exception.

Definition action := State -> outcome.

Definition skip : action := fun s => MkOutcome s [] None.

(** Sequencing of statements: an exception ends the sequence. *)
Definition and_then (a b : action) : action := fun s =>
  let o := a s in
  match raised o with
  | Some _ => o
  | None =>
      let o' := b (final o) in
      MkOutcome (final o') (calls o ++ calls o') (raised o')
  end.

(** [for x in xs: body(x)] *)
Fixpoint for_each {A} (xs : list A) (body : A -> action) : action :=
  match xs with
  | [] => skip
  | x :: rest => and_then (body x) (for_each rest body)
  end.

(** One evaluation of [subscriber(msg)], started in the given mode. *)
Definition start (how : mode) (subscriber : callable) (msg : message) : action :=
  fun s =>
    let '(s', r) := invoke how subscriber msg s in
    MkOutcome s' [(subscriber, msg)] r.

(** [subscribers] is the copy taken under the lock; the loop runs on the
    copy, whatever the handlers do to the registry meanwhile.  Python
    iterates a set in an order of its own: [elements] is likewise one
    enumeration of the set without repetition, and the proofs use nothing
    else about it. *)
Definition publish (msg : message) (tok : token_arg) : action := fun s =>
  let message_type := type_of msg in
  match get_bucket (messager s) message_type tok with
  | Raise e => MkOutcome s [] (Some e)
  | Ok subscribers =>
      for_each (elements subscribers) (fun subscriber =>
        if iscoroutinefunction subscriber
        then start RunUntilComplete subscriber msg
        else start Inline subscriber msg) s
  end.

Definition batch_publish (messages : list message) (tok : token_arg)
    : action :=
  match messages with
  | [] => skip
  | _ =>
      let message_groups := group_messages messages in
      for_each message_groups (fun '(msg_type, msgs) s =>
        match get_bucket (messager s) msg_type tok with
        | Raise e => MkOutcome s [] (Some e)
        | Ok subscribers =>
            for_each (elements subscribers) (fun subscriber =>
              for_each msgs (fun msg =>
                if iscoroutinefunction subscriber
                then start CreateTask subscriber msg
                else start Inline subscriber msg)) s
        end)
  end.

(** The loop bodies above, by name. *)

(** The body of the loop of [publish]. *)
Definition deliver (msg : message) (subscriber : callable) : action :=
  if iscoroutinefunction subscriber
  then start RunUntilComplete subscriber msg
  else start Inline subscriber msg.

(** The innermost statement of [batch_publish]. *)
Definition send (subscriber : callable) (msg : message) : action :=
  if iscoroutinefunction subscriber
  then start CreateTask subscriber msg
  else start Inline subscriber msg.

(** The body of the loop over [message_groups.items()]. *)
Definition dispatch_group (tok : token_arg)
    : pytype * list message -> action :=
  fun '(msg_type, msgs) s =>
    match get_bucket (messager s) msg_type tok with
    | Raise e => MkOutcome s [] (Some e)
    | Ok subscribers =>
        for_each (elements subscribers) (fun subscriber =>
          for_each msgs (fun msg => send subscriber msg)) s
    end.

(** No handler changes the registry while it runs. *)
Definition leaves_registry : Prop :=
  ∀ how h m s, messager (invoke how h m s).1 = messager s.
End Dispatch.

Arguments State : clear implicits.
Arguments outcome : clear implicits.
Arguments action : clear implicits.

(** ** asyncio, as far as the dispatch loops use it *)

Section Asyncio.
(** The state of the program the handler bodies act on. *)
Context {W : Type}.

(** What the calling thread and asyncio hold besides the registry: whether
    an event loop is running in the thread (the caller is inside a
    coroutine or a callback of the loop); the tasks [create_task] has
    scheduled on that loop, none of which has started; the calls whose body
    has run to its end; the number of event loops made by
    [new_event_loop] and closed again; and the state of the program. *)
Record Asyncio := MkAsyncio {
  loop_running : bool;
  scheduled : list call;
  completed : list call;
  private_loops : nat;
  user : W
}.

(** What running the body of a handler on a message does to the registry
    and to the state of the program, and the exception it raises, if
    any. *)
Variable body : callable -> message -> State W -> State W * option exception.

(** The body of [h] runs on [m], to its end or to the exception it
    raises. *)
Definition run_body (h : callable) (m : message) (s : State Asyncio)
    : State Asyncio * option exception :=
  let a := world s in
  let '(s', r) := body h m (MkState (messager s) (user a)) in
  (MkState (messager s')
     (MkAsyncio (loop_running a) (scheduled a)
        (match r with
         | None => completed a ++ [(h, m)]
         | Some _ => completed a
         end)
        (private_loops a) (world s')),
   r).

(** The value of the expression [subscriber(message)]. *)
Inductive called :=
  | Coroutine                (* a coroutine object; its body has not started *)
  | Value                    (* the body ran and returned *)
  | Raising (e : exception). (* the body ran and raised *)

Definition call_handler (h : callable) (m : message) (s : State Asyncio)
    : State Asyncio * called :=
  if returns_coroutine h then (s, Coroutine)
  else
    let '(s', r) := run_body h m s in
    (s', (match r with None => Value | Some e => Raising e end)).

(** [loop = asyncio.new_event_loop()], closed in the [finally] that
    follows. *)
Definition private_loop (s : State Asyncio) : State Asyncio :=
  let a := world s in
  MkState (messager s)
    (MkAsyncio (loop_running a) (scheduled a) (completed a)
       (S (private_loops a)) (user a)).

(** The task is put on the running loop. *)
Definition schedule (c : call) (s : State Asyncio) : State Asyncio :=
  let a := world s in
  MkState (messager s)
    (MkAsyncio (loop_running a) (scheduled a ++ [c]) (completed a)
       (private_loops a) (user a)).

(** The three ways the dispatch loops start a handler:
    - [subscriber(message)]: the value of the call is dropped;
    - [loop.run_until_complete(subscriber(message))] on a new loop:
      [RuntimeError] where a loop is running in the thread already,
      otherwise the coroutine is run to its end, and what is not awaitable
      is refused with [TypeError];
    - [asyncio.create_task(subscriber(msg))]: [RuntimeError] where no loop
      is running, otherwise the coroutine is scheduled on the running loop
      without any of it being run, and what is no coroutine is refused
      with [TypeError]. *)
Definition asyncio_invoke (how : mode) (h : callable) (m : message)
    (s : State Asyncio) : State Asyncio * option exception :=
  match how with
  | Inline =>
      match call_handler h m s with
      | (s', Raising e) => (s', Some e)
      | (s', _) => (s', None)
      end
  | RunUntilComplete =>
      match call_handler h m (private_loop s) with
      | (s', Raising e) => (s', Some e)
      | (s', Coroutine) =>
          if loop_running (world s') then (s', Some (Raised "RuntimeError"))
          else run_body h m s'
      | (s', Value) =>
          if loop_running (world s') then (s', Some (Raised "RuntimeError"))
          else (s', Some (Raised "TypeError"))
      end
  | CreateTask =>
      match call_handler h m s with
      | (s', Raising e) => (s', Some e)
      | (s', Coroutine) =>
          if loop_running (world s') then (schedule (h, m) s', None)
          else (s', Some (Raised "RuntimeError"))
      | (s', Value) =>
          if loop_running (world s') then (s', Some (Raised "TypeError"))
          else (s', Some (Raised "RuntimeError"))
      end
  end.
End Asyncio.

Arguments Asyncio : clear implicits.

(** ** Sequences of registry calls *)

Inductive operation :=
  | Subscribe (subscriber : callable) (tok : token_arg)
  | SubscribeReceiver (r : receiver)
  | Unsubscribe (subscriber : callable)
  | UnsubscribeReceiver (r : receiver).

Definition perform (op : operation) : M unit :=
  match op with
  | Subscribe subscriber tok => subscribe subscriber tok
  | SubscribeReceiver r => subscribeReceiver r
  | Unsubscribe subscriber => unsubscribe subscriber
  | UnsubscribeReceiver r => unsubscribeReceiver r
  end.

(** The registry after a sequence of calls, each of which returned or
    raised (the caller catching the exception). *)
Definition perform_all (ops : list operation) (self : Messager) : Messager :=
  foldl (fun self op => (perform op self).1) self ops.

(** [op] is neither [unsubscribe(h)] nor [unsubscribeReceiver(r)] for the
    receiver [r] whose bound method [h] is. *)
Definition keeps (h : callable) (op : operation) : Prop :=
  match op with
  | Unsubscribe h' => h' ≠ h
  | UnsubscribeReceiver r => receive r ≠ h
  | _ => True
  end.

(** [h] sits in no bucket of the routing table. *)
Definition unrouted (h : callable) (self : Messager) : Prop :=
  ∀ ty tok, h ∉ bucket self ty tok.

(** ** Construction of the singleton *)

Module Singleton.
(** Object references. *)
Definition ref := nat.

(** The class attribute [_INSTANCE] and the instances allocated so far;
    an instance either has no [subscribers] attribute yet ([None]) or
    carries its two attributes. *)
Record Process := MkProcess {
  INSTANCE : option ref;
  heap : gmap ref (option Messager)
}.

(** [Messager.__new__(cls)] *)
Definition new (p : Process) : Process * ref :=
  match INSTANCE p with
  | None =>
      let o := fresh (dom (heap p)) in
      (MkProcess (Some o) (<[o := None]> (heap p)), o)
  | Some o => (p, o)
  end.

(** [hasattr(self, "subscribers")] *)
Definition hasattr_subscribers (self : ref) (p : Process) : bool :=
  match heap p !! self with
  | Some (Some _) => true
  | _ => false
  end.

(** [Messager.__init__(self)] *)
Definition init (self : ref) (p : Process) : Process :=
  if negb (hasattr_subscribers self p)
  then MkProcess (INSTANCE p) (<[self := Some fresh_messager]> (heap p))
  else p.

(** The expression [Messager()]: [__new__], then [__init__] on its
    result. *)
Definition construct (p : Process) : Process * ref :=
  let '(p', self) := new p in (init self p', self).

(** A method call [self.f(...)] through a reference to an initialised
    instance; the embedding gives no meaning to a call through any other
    reference. *)
Definition method {A} (self : ref) (f : M A) (p : Process)
    : option (Process * result A) :=
  match heap p !! self with
  | Some (Some m) =>
      let '(m', r) := f m in
      Some (MkProcess (INSTANCE p) (<[self := Some m']> (heap p)), r)
  | _ => None
  end.

(** A sequence of method calls, each returning or raising, through a
    reference to an initialised instance, as every reference returned by a
    construction is (lemma [methods_installed]); a call through any other
    reference is not evaluated. *)
Definition methods (self : ref) (fs : list (M unit)) (p : Process) : Process :=
  foldl (fun p f => from_option fst p (method self f p)) p fs.

(** The registry reached through a reference, if initialised. *)
Definition registry_of (self : ref) (p : Process) : option Messager :=
  mjoin (heap p !! self).

Definition boot : Process := MkProcess None ∅.
End Singleton.

(** * Vocabulary of the properties *)

(** The annotation [_get_parameter_type] returns, or the exception it
    raises; the method reads the signature only. *)
Definition declared_type (c : callable) : result pytype :=
  match signature c with
  | [Some ty] => Ok ty
  | [None] => Raise (ValueError NoAnnotation)
  | _ => Raise (ValueError NotOneParameter)
  end.

(** State left by a successful [subscribe]/[subscribeReceiver]: [c] joins
    the bucket of [(ty, tok)], [o] joins the identity set. *)
Definition added (c : callable) (ty : pytype) (tok : token) (o : pyobject)
    (self : Messager) : Messager :=
  MkMessager
    (<[ty := <[tok := bucket self ty tok ∪ {[c]}]> (by_token self ty)]>
       (subscribers self))
    (subscriberSet self ∪ {[o]}).

(** State left by [unsubscribe]/[unsubscribeReceiver] once the signature
    check passed. *)
Definition removed (c : callable) (ty : pytype) (o : pyobject)
    (self : Messager) : Messager :=
  MkMessager
    (if has_key ty (subscribers self)
     then <[ty := discard_everywhere c (by_token self ty)]> (subscribers self)
     else subscribers self)
    (subscriberSet self ∖ {[o]}).

(** [receiver.token if hasattr(receiver, "token") else None] *)
Definition receiver_token (r : receiver) : token_arg :=
  match token_attr r with Some t => t | None => None end.

(** State left by a subscription that raised on an unhashable token: the
    type has its dictionary, empty if it had none. *)
Definition touched (ty : pytype) (self : Messager) : Messager :=
  if has_key ty (subscribers self) then self else set_by_token ty ∅ self.

(** What a subscription leaves and answers once the duplicate test and the
    signature check passed. *)
Definition registered (c : callable) (ty : pytype) (tok : token_arg)
    (o : pyobject) (self : Messager) : Messager * result unit :=
  match tok with
  | Hashable tok => (added c ty tok o self, Ok tt)
  | Unhashable _ => (touched ty self, Raise (Raised "TypeError"))
  end.

(** The calls of a trace made to one handler. *)
Definition invocations (h : callable) (cs : list call) : list call :=
  filter (fun c : call => c.1 = h) cs.

(** The calls that hand every message of [msgs] to every handler of [hs]:
    handler by handler, each receiving the messages in order. *)
Definition block (msgs : list message) (hs : list callable) : list call :=
  concat ((fun h => (fun m => (h, m)) <$> msgs) <$> hs).

(** The member of [subscriberSet] that records a registration of the
    callable [c]: [c] itself after [subscribe(c)], the receiver [r] after
    [subscribeReceiver(r)] where [c] is [r.receive]. *)
Definition stands_for (o : pyobject) (c : callable) : Prop :=
  match o with
  | ObjCallable c' => c' = c
  | ObjReceiver r => receive r = c
  end.

(** [c] is registered both through [subscribe(c)] and, as [r.receive],
    through [subscribeReceiver(r)]. *)
Definition registered_twice (c : callable) (self : Messager) : Prop :=
  ObjCallable c ∈ subscriberSet self
  ∧ ∃ r, receive r = c ∧ ObjReceiver r ∈ subscriberSet self.

(** What holds of every registry built by the four registry methods: a
    handler sits only under the type it declares, every handler of a bucket
    is recorded in the identity set, and a handler that is not registered
    twice sits in one bucket at most. *)
Record consistent (self : Messager) : Prop := MkConsistent {
  bucket_typed : ∀ c ty tok,
    c ∈ bucket self ty tok → declared_type c = Ok ty;
  bucket_known : ∀ c ty tok,
    c ∈ bucket self ty tok → ∃ o, stands_for o c ∧ o ∈ subscriberSet self;
  bucket_single : ∀ c ty tok ty' tok',
    ¬ registered_twice c self →
    c ∈ bucket self ty tok → c ∈ bucket self ty' tok' → ty = ty' ∧ tok = tok'
}.

(** [h] is not subscribed: it sits in no bucket and is not in the identity
    set. *)
Definition absent (h : callable) (o : pyobject) (self : Messager) : Prop :=
  unrouted h self ∧ o ∉ subscriberSet self.

(** [message_groups.get(ty)] *)
Fixpoint group_of (ty : pytype) (groups : list (pytype * list message))
    : option (list message) :=
  match groups with
  | [] => None
  | (ty', msgs) :: rest =>
      if decide (ty' = ty) then Some msgs else group_of ty rest
  end.

(** The messages of type [ty], in their order in the list. *)
Definition of_type (ty : pytype) (messages : list message) : list message :=
  filter (fun m => type_of m = ty) messages.

(** A group grown by later messages; no group is made for no message. *)
Definition extend (o : option (list message)) (more : list message)
    : option (list message) :=
  match more with
  | [] => o
  | _ => Some (default [] o ++ more)
  end.

(** The registry left by a sequence of method calls. *)
Definition after_calls (fs : list (M unit)) (reg : Messager) : Messager :=
  foldl (fun reg f => (f reg).1) reg fs.

(** [_INSTANCE] is [self] and [self] carries its attributes. *)
Definition installed (self : Singleton.ref) (reg : Messager)
    (p : Singleton.Process) : Prop :=
  Singleton.INSTANCE p = Some self
  ∧ Singleton.heap p !! self = Some (Some reg).

(** Two registries route alike: the same handlers in every bucket and the
    same identity set.  They can still differ as dictionaries, by keys that
    hold an empty dictionary or an empty set. *)
Definition same_routing (a b : Messager) : Prop :=
  (∀ ty tok, bucket a ty tok = bucket b ty tok)
  ∧ subscriberSet a = subscriberSet b.

(** The callable a registry call is about: the handler itself, or the bound
    method [receiver.receive]. *)
Definition target (op : operation) : callable :=
  match op with
  | Subscribe h _ | Unsubscribe h => h
  | SubscribeReceiver r | UnsubscribeReceiver r => receive r
  end.

(** The member of the identity set a registry call tests, adds or
    discards. *)
Definition identity (op : operation) : pyobject :=
  match op with
  | Subscribe h _ | Unsubscribe h => ObjCallable h
  | SubscribeReceiver r | UnsubscribeReceiver r => ObjReceiver r
  end.

(** The token a subscription is made with. *)
Definition token_of (op : operation) : token_arg :=
  match op with
  | Subscribe _ tok => tok
  | SubscribeReceiver r => receiver_token r
  | _ => None
  end.

(** [hash(tok)] returns. *)
Definition hashable (tok : token_arg) : bool :=
  match tok with
  | Hashable _ => true
  | Unhashable _ => false
  end.

(** The key a subscription files its handler under, when the token it is
    made with is hashable. *)
Definition filed_under (op : operation) : token :=
  match token_of op with
  | Hashable tok => tok
  | Unhashable _ => None
  end.

Definition is_subscription (op : operation) : bool :=
  match op with
  | Subscribe _ _ | SubscribeReceiver _ => true
  | _ => false
  end.

(** The [ValueError] of the duplicate test of each subscription method. *)
Definition exists_error (op : operation) : value_error :=
  match op with
  | SubscribeReceiver _ => ReceiverExists
  | _ => SubscriberExists
  end.

(** What a subscription raises for an identity already in
    [subscriberSet]: [subscribe] reads [subscriber.__name__] to build the
    message of its [ValueError]. *)
Definition duplicate_exception (op : operation) : exception :=
  match op with
  | Subscribe h _ =>
      if has_name h then ValueError SubscriberExists
      else Raised "AttributeError"
  | _ => ValueError (exists_error op)
  end.

(** The unsubscription that matches a subscription. *)
Definition undo (op : operation) : operation :=
  match op with
  | Subscribe h _ => Unsubscribe h
  | SubscribeReceiver r => UnsubscribeReceiver r
  | _ => op
  end.

(** What a registry call does to the registry: nothing (it raised before
    any assignment), a registration under a type, a removal under a type,
    or no more than the dictionary of a type (it raised on an unhashable
    token). *)
Inductive change :=
  | Nothing
  | Register (ty : pytype)
  | Unregister (ty : pytype)
  | Touch (ty : pytype).

Definition chosen (op : operation) (self : Messager) : change :=
  if is_subscription op
  then if bool_decide (identity op ∈ subscriberSet self) then Nothing
       else match declared_type (target op) with
            | Ok ty =>
                match token_of op with
                | Hashable _ => Register ty
                | Unhashable _ => Touch ty
                end
            | Raise _ => Nothing
            end
  else match declared_type (target op) with
       | Ok ty => Unregister ty
       | Raise _ => Nothing
       end.

Definition apply_change (op : operation) (ch : change) (self : Messager)
    : Messager :=
  match ch with
  | Nothing => self
  | Register ty => added (target op) ty (filed_under op) (identity op) self
  | Unregister ty => removed (target op) ty (identity op) self
  | Touch ty => touched ty self
  end.

(** Every plain function recorded in the identity set sits in a bucket. *)
Definition functions_routed (self : Messager) : Prop :=
  ∀ i ps co, ObjCallable (Function i ps co) ∈ subscriberSet self →
             ∃ ty tok, Function i ps co ∈ bucket self ty tok.

(** The mode in which the loop of [publish] starts a handler, and the one
    in which the loops of [batch_publish] do. *)
Definition publish_mode (h : callable) : mode :=
  if iscoroutinefunction h then RunUntilComplete else Inline.

Definition batch_mode (h : callable) : mode :=
  if iscoroutinefunction h then CreateTask else Inline.

(** The state reached when the calls [cs] are made one after the other,
    each handler started in the state the call before it left, and every
    one of them returns; [None] when one of them raises.  It is computed
    from [invoke] alone. *)
Fixpoint returning {World : Type}
    (invoke : mode -> callable -> message -> State World
              -> State World * option exception)
    (how : callable -> mode) (cs : list call) (s : State World)
    : option (State World) :=
  match cs with
  | [] => Some s
  | (h, m) :: rest =>
      match invoke (how h) h m s with
      | (s', None) => returning invoke how rest s'
      | (_, Some _) => None
      end
  end.



(** The caller's loop [for msg in messages: publish(msg, tok)]. *)
Definition publish_each {World : Type}
    (invoke : mode -> callable -> message -> State World
              -> State World * option exception)
    (messages : list message) (tok : token_arg) : action World :=
  for_each messages (fun msg => publish invoke msg tok).

(** The calls [batch_publish] makes when nothing raises and the buckets
    are those of [reg]: group after group, and in a group handler after
    handler. *)
Definition full_delivery (reg : Messager) (tok : token)
    (groups : list (pytype * list message)) : list call :=
  concat ((fun '(ty, msgs) => block msgs (elements (bucket reg ty tok)))
          <$> groups).

(** What a program does with the class: construct it, or call a method
    through the reference constructions return. *)
Inductive use :=
  | Construct
  | CallMethod (f : M unit).

Definition run_use (p : Singleton.Process) (u : use) : Singleton.Process :=
  match u with
  | Construct => (Singleton.construct p).1
  | CallMethod f =>
      match Singleton.INSTANCE p with
      | Some self => Singleton.methods self [f] p
      | None => p
      end
  end.

(** The heap holds nothing but the installed instance. *)
Definition alone (p : Singleton.Process) : Prop :=
  match Singleton.INSTANCE p with
  | None => Singleton.heap p = ∅
  | Some self => ∃ reg, Singleton.heap p = {[self := Some reg]}
  end.

(** ** Handlers and receivers used in the examples *)

(** [def handler(msg: str): ...] *)
Definition on_str (i : nat) : callable := Function i [Some "str"] false.

(** [def handler(a: str, b: int): ...] and [def handler(msg): ...] *)
Definition two_parameters : callable := Function 7 [Some "str"; Some "int"] false.
Definition unannotated : callable := Function 8 [None] false.

(** A receiver with [token = "a"] and [def receive(self, message: str)]. *)
Definition receiver_a : receiver :=
  Receiver 1 (Some (Hashable (Some "a"))) [Some "str"] false.

(** Receivers whose [receive] breaks the subscription contract. *)
Definition receiver_two_parameters : receiver :=
  Receiver 2 (Some (Hashable None)) [Some "str"; Some "int"] false.
Definition receiver_unannotated : receiver :=
  Receiver 3 (Some (Hashable None)) [None] false.

(** [functools.partial(f, 1)] for [def f(n: int, msg: str)], and an
    instance of a class with [def __call__(self, msg: str)]. *)
Definition partial_on_str : callable := Partial 9 [Some "str"] false.
Definition callable_object_on_str : callable :=
  CallableObject 10 [Some "str"] false.

(** A list passed as token, and a receiver whose [token] is one. *)
Definition unhashable_token : token_arg := Unhashable 0.
Definition receiver_unhashable : receiver :=
  Receiver 4 (Some unhashable_token) [Some "str"] false.

(** [subscribe(on_str 3, "t")], its unsubscription, and a registry holding
    that one subscription; a second handler of [str] under the same
    token. *)
Definition sub3 : operation := Subscribe (on_str 3) (Some "t").
Definition unsub3 : operation := Unsubscribe (on_str 3).
Definition sub5 : operation := Subscribe (on_str 5) (Some "t").
Definition registry3 : Messager := perform_all [sub3] fresh_messager.
Definition registry35 : Messager := perform_all [sub3; sub5] fresh_messager.

(** Three handlers of [str] under one token. *)
Definition registry123 : Messager :=
  perform_all [Subscribe (on_str 1) (Some "t"); Subscribe (on_str 2) (Some "t");
               Subscribe (on_str 3) (Some "t")] fresh_messager.

(** Handlers that return without touching anything. *)
Definition quiet (how : mode) (h : callable) (m : message) (s : State unit)
    : State unit * option exception := (s, None).


(** Handlers that append the message to a shared list, as the
    [received.append(message)] handlers of the tests do; the handler with
    identity 1 raises after doing so. *)
Definition recording (how : mode) (h : callable) (m : message)
    (s : State (list message)) : State (list message) * option exception :=
  (MkState (messager s) (world s ++ [m]),
   (match h with
    | Function 1 _ _ => Some (Raised "RuntimeError")
    | _ => None
    end)).

(** [async def handler(msg: str): ...], and an instance of a class with
    [async def __call__(self, msg: str)]. *)
Definition on_str_async (i : nat) : callable := Function i [Some "str"] true.

(** A plain handler and a coroutine handler of [str] under one token. *)
Definition registry_mixed : Messager :=
  perform_all [Subscribe (on_str 3) (Some "t");
               Subscribe (on_str_async 6) (Some "t")] fresh_messager.


(** Handler bodies that append the message and never raise. *)
Definition storing (h : callable) (m : message) (s : State (list message))
    : State (list message) * option exception :=
  (MkState (messager s) (world s ++ [m]), None).

(** A caller in synchronous code, and a caller inside a coroutine. *)
Definition synchronous_caller (reg : Messager) : State (Asyncio (list message)) :=
  MkState reg (MkAsyncio false [] [] 0 []).
Definition caller_in_coroutine (reg : Messager)
    : State (Asyncio (list message)) :=
  MkState reg (MkAsyncio true [] [] 0 []).

(** * Properties *)

(** ** Closed forms of the registry methods *)

Lemma get_parameter_type_eq c self :
  _get_parameter_type c self = (self, declared_type c).
Proof.
  unfold _get_parameter_type, declared_type.
  destruct (signature c) as [|[ty|] [|p ps]]; reflexivity.
Qed.

Lemma has_key_false `{Countable K} {V} (k : K) (d : gmap K V) :
  has_key k d = false → d !! k = None.
Proof.
  unfold has_key. intros Hk. apply bool_decide_eq_false in Hk.
  by apply eq_None_not_Some.
Qed.

Lemma has_key_true `{Countable K} {V} (k : K) (d : gmap K V) :
  has_key k d = true → ∃ v, d !! k = Some v.
Proof. unfold has_key. intros Hk. by apply bool_decide_eq_true in Hk. Qed.

Lemma register_eq c ty (tok : token_arg) o self :
  (known ← gets (fun self => has_key ty (subscribers self));
   when (negb known) (modify (set_by_token ty ∅));;
   match tok with
   | Unhashable _ => raise (Raised "TypeError")
   | Hashable tok =>
       grouped ← gets (fun self => has_key tok (by_token self ty));
       when (negb grouped) (modify (set_bucket ty tok ∅));;
       modify (fun self => set_subscriberSet (subscriberSet self ∪ {[o]}) self);;
       modify (fun self =>
         set_bucket ty tok (bucket self ty tok ∪ {[c]}) self)
   end) self
  = registered c ty tok o self.
Proof.
  destruct self as [subs ids].
  destruct tok as [tok|i]; unfold registered.
  2:{ unfold mbind, M_bind, bind, gets, modify, when, mret, M_ret, ret, raise,
        touched; simpl.
      by destruct (has_key ty subs). }
  unfold mbind, M_bind, bind, gets, modify, when, mret, M_ret, ret, added,
    set_bucket, set_by_token, set_subscriberSet, bucket, by_token; simpl.
  destruct (has_key ty subs) eqn:Hty; simpl.
  - apply has_key_true in Hty as [d Hd]. rewrite Hd; simpl.
    destruct (has_key tok d) eqn:Htok; simpl.
    + rewrite Hd; simpl. reflexivity.
    + apply has_key_false in Htok.
      rewrite !lookup_insert_eq; simpl. rewrite lookup_insert_eq; simpl.
      rewrite ?Hd; simpl. unfold token in *. rewrite ?Htok; simpl.
      by rewrite !insert_insert_eq.
  - apply has_key_false in Hty. rewrite Hty; simpl.
    rewrite !lookup_insert_eq; simpl.
    assert (has_key tok (∅ : gmap token (gset callable)) = false) as ->
      by (unfold has_key; apply bool_decide_eq_false; rewrite lookup_empty;
          by intros [? ?]).
    simpl. rewrite !lookup_insert_eq; simpl. rewrite !lookup_insert_eq; simpl.
    rewrite lookup_empty; simpl.
    by rewrite !insert_insert_eq.
Qed.

Lemma subscribe_eq h tok self :
  subscribe h tok self =
    if bool_decide (ObjCallable h ∈ subscriberSet self)
    then (self, Raise (duplicate_exception (Subscribe h tok)))
    else match declared_type h with
         | Ok ty => registered h ty tok (ObjCallable h) self
         | Raise e => (self, Raise e)
         end.
Proof.
  unfold subscribe.
  unfold mbind at 1, M_bind at 1, bind at 1, gets at 1.
  destruct (bool_decide _); [simpl; by destruct (has_name h)|].
  unfold mbind at 1, M_bind at 1, bind at 1.
  rewrite get_parameter_type_eq.
  destruct (declared_type h) as [ty|e]; [|reflexivity].
  apply register_eq.
Qed.

Lemma subscribeReceiver_eq r self :
  subscribeReceiver r self =
    if bool_decide (ObjReceiver r ∈ subscriberSet self)
    then (self, Raise (ValueError ReceiverExists))
    else match declared_type (receive r) with
         | Ok ty =>
             registered (receive r) ty (receiver_token r) (ObjReceiver r) self
         | Raise e => (self, Raise e)
         end.
Proof.
  unfold subscribeReceiver.
  unfold mbind at 1, M_bind at 1, bind at 1, gets at 1.
  destruct (bool_decide _); [reflexivity|].
  unfold mbind at 1, M_bind at 1, bind at 1.
  rewrite get_parameter_type_eq.
  destruct (declared_type (receive r)) as [ty|e]; [|reflexivity].
  apply register_eq.
Qed.

Lemma unregister_eq c ty o self :
  (known ← gets (fun self => has_key ty (subscribers self));
   when known (modify (fun self =>
     set_by_token ty (discard_everywhere c (by_token self ty)) self));;
   modify (fun self =>
     set_subscriberSet (subscriberSet self ∖ {[o]}) self)) self
  = (removed c ty o self, Ok tt).
Proof.
  destruct self as [subs ids].
  unfold mbind, M_bind, bind, gets, modify, when, mret, M_ret, ret, removed,
    set_by_token, set_subscriberSet; simpl.
  by destruct (has_key ty subs).
Qed.

Lemma unsubscribe_eq h self :
  unsubscribe h self =
    match declared_type h with
    | Ok ty => (removed h ty (ObjCallable h) self, Ok tt)
    | Raise e => (self, Raise e)
    end.
Proof.
  unfold unsubscribe.
  unfold mbind at 1, M_bind at 1, bind at 1.
  rewrite get_parameter_type_eq.
  destruct (declared_type h) as [ty|e]; [|reflexivity].
  apply unregister_eq.
Qed.

Lemma unsubscribeReceiver_eq r self :
  unsubscribeReceiver r self =
    match declared_type (receive r) with
    | Ok ty => (removed (receive r) ty (ObjReceiver r) self, Ok tt)
    | Raise e => (self, Raise e)
    end.
Proof.
  unfold unsubscribeReceiver.
  unfold mbind at 1, M_bind at 1, bind at 1.
  rewrite get_parameter_type_eq.
  destruct (declared_type (receive r)) as [ty|e]; [|reflexivity].
  apply unregister_eq.
Qed.

(** ** Buckets after a registration or a removal *)

Lemma bucket_added c ty tok o self ty' tok' :
  bucket (added c ty tok o self) ty' tok' =
    if decide (ty' = ty ∧ tok' = tok)
    then bucket self ty tok ∪ {[c]}
    else bucket self ty' tok'.
Proof.
  unfold bucket at 1, by_token at 1, added; simpl.
  destruct (decide (ty' = ty)) as [->|Hty].
  - rewrite lookup_insert_eq; simpl.
    destruct (decide (tok' = tok)) as [->|Htok].
    + rewrite lookup_insert_eq. by rewrite decide_True.
    + rewrite lookup_insert_ne by done. rewrite decide_False by tauto.
      reflexivity.
  - rewrite lookup_insert_ne by done. rewrite decide_False by tauto.
    reflexivity.
Qed.

Lemma subscriberSet_added c ty tok o self :
  subscriberSet (added c ty tok o self) = subscriberSet self ∪ {[o]}.
Proof. reflexivity. Qed.

Lemma discard_lookup (c : callable) (d : gmap token (gset callable))
    (tok : token) :
  default ∅ (discard_everywhere c d !! tok) = default ∅ (d !! tok) ∖ {[c]}.
Proof.
  unfold discard_everywhere. rewrite lookup_fmap.
  destruct (d !! tok) as [b|]; simpl.
  - case_bool_decide; [done|]. set_solver.
  - set_solver.
Qed.

Lemma bucket_removed c ty o self ty' tok' :
  bucket (removed c ty o self) ty' tok' =
    if decide (ty' = ty)
    then bucket self ty' tok' ∖ {[c]}
    else bucket self ty' tok'.
Proof.
  unfold bucket at 1, by_token at 1, removed; simpl.
  destruct (has_key ty (subscribers self)) eqn:Hk.
  - destruct (decide (ty' = ty)) as [->|Hty].
    + rewrite lookup_insert_eq; simpl. apply discard_lookup.
    + by rewrite lookup_insert_ne.
  - apply has_key_false in Hk.
    destruct (decide (ty' = ty)) as [->|Hty]; [|done].
    unfold bucket, by_token. rewrite Hk; simpl. rewrite lookup_empty; simpl.
    set_solver.
Qed.

Lemma bucket_touched ty self ty' tok' :
  bucket (touched ty self) ty' tok' = bucket self ty' tok'.
Proof.
  unfold touched. destruct (has_key ty (subscribers self)) eqn:Hk; [done|].
  apply has_key_false in Hk.
  unfold bucket, by_token, set_by_token; simpl.
  destruct (decide (ty' = ty)) as [->|Hty].
  - by rewrite lookup_insert_eq, Hk.
  - by rewrite lookup_insert_ne.
Qed.

Lemma subscriberSet_touched ty self :
  subscriberSet (touched ty self) = subscriberSet self.
Proof. unfold touched. by destruct (has_key ty (subscribers self)). Qed.

Lemma subscriberSet_removed c ty o self :
  subscriberSet (removed c ty o self) = subscriberSet self ∖ {[o]}.
Proof. reflexivity. Qed.

(** Removing what is nowhere leaves the very same registry. *)
Lemma removed_absent c ty o self :
  unrouted c self → o ∉ subscriberSet self → removed c ty o self = self.
Proof.
  intros Hc Ho. destruct self as [subs ids]; unfold removed; simpl in *.
  f_equal; [|set_solver].
  destruct (has_key ty subs) eqn:Hk; [|done].
  apply has_key_true in Hk as [d Hd].
  unfold by_token; simpl. rewrite Hd; simpl.
  apply map_eq; intros k.
  destruct (decide (k = ty)) as [->|Hne].
  - rewrite lookup_insert_eq, Hd. f_equal.
    apply map_eq; intros tok. unfold discard_everywhere. rewrite lookup_fmap.
    destruct (d !! tok) as [b|] eqn:Hb; [|done]. simpl.
    rewrite bool_decide_eq_false_2; [done|].
    specialize (Hc ty tok). unfold bucket, by_token in Hc; simpl in Hc.
    by rewrite Hd in Hc; simpl in Hc; rewrite Hb in Hc.
  - by rewrite lookup_insert_ne.
Qed.

(** ** Dispatch loops *)

Section DispatchFacts.
Context {World : Type}.
Variable invoke :
  mode -> callable -> message -> State World -> State World * option exception.

Lemma for_each_app {A} (xs ys : list A) body (s : State World) :
  for_each (xs ++ ys) body s
  = and_then (for_each xs body) (for_each ys body) s.
Proof.
  revert s. induction xs as [|x xs IH]; intros s; simpl.
  - unfold and_then, skip; simpl. by destruct (for_each ys body s).
  - unfold and_then at 1. rewrite IH. unfold and_then.
    destruct (body x s) as [s1 c1 [e|]]; simpl; [done|].
    destruct (for_each xs body s1) as [s2 c2 [e|]]; simpl; [done|].
    by rewrite app_assoc.
Qed.

(** A loop that returns has run its body on every element, in order. *)
Lemma for_each_returns {A} (xs : list A) (body : A -> action World)
    (f : A -> list call) :
  (∀ x s, raised (body x s) = None → calls (body x s) = f x) →
  ∀ s, raised (for_each xs body s) = None →
       calls (for_each xs body s) = concat (f <$> xs).
Proof.
  intros Hbody. induction xs as [|x xs IH]; intros s; simpl; [done|].
  unfold and_then. destruct (raised (body x s)) eqn:Hx; simpl.
  - by rewrite Hx.
  - intros Hrest. by rewrite (Hbody x s Hx), (IH _ Hrest).
Qed.

Lemma concat_singletons {A B} (f : A -> B) (l : list A) :
  concat ((fun x => [f x]) <$> l) = f <$> l.
Proof. induction l as [|x l IH]; csimpl; [done|]. by rewrite IH. Qed.

Lemma publish_eq msg (tok : token) s :
  publish invoke msg tok s
  = for_each (elements (bucket (messager s) (type_of msg) tok))
      (deliver invoke msg) s.
Proof. reflexivity. Qed.

Lemma calls_deliver msg h s : calls (deliver invoke msg h s) = [(h, msg)].
Proof.
  unfold deliver, start.
  destruct (iscoroutinefunction h); by destruct (invoke _ h msg s).
Qed.

(** The calls of [publish] are made to a prefix of the snapshot, the whole
    of it when the loop returns. *)
Lemma deliver_prefix msg (hs : list callable) s :
  ∃ k, calls (for_each hs (deliver invoke msg) s) = (fun h => (h, msg)) <$> take k hs
       ∧ (raised (for_each hs (deliver invoke msg) s) = None → k = length hs).
Proof.
  revert s. induction hs as [|h hs IH]; intros s; simpl.
  - by exists 0.
  - unfold and_then. destruct (raised (deliver invoke msg h s)) eqn:Hh; simpl.
    + exists 1. by rewrite calls_deliver, Hh.
    + destruct (IH (final (deliver invoke msg h s))) as (k & Hk & Hall).
      exists (S k). rewrite calls_deliver, Hk. split; [done|].
      intros Hr. by rewrite (Hall Hr).
Qed.

Lemma invocations_pairs msg (h : callable) (hs : list callable) :
  NoDup hs →
  invocations h ((fun x => (x, msg)) <$> hs)
  = if bool_decide (h ∈ hs) then [(h, msg)] else [].
Proof.
  unfold invocations. induction 1 as [|x xs Hx Hnd IH]; [done|].
  rewrite fmap_cons, filter_cons, IH.
  destruct (decide ((x, msg).1 = h)) as [Heq|Hne]; simpl in *.
  - subst x. rewrite (bool_decide_eq_false_2 (h ∈ xs)) by done.
    by rewrite bool_decide_eq_true_2 by apply list_elem_of_here.
  - case_bool_decide as Hin.
    + rewrite bool_decide_eq_true_2; [done|]. by apply elem_of_cons; right.
    + rewrite bool_decide_eq_false_2; [done|].
      rewrite elem_of_cons. by intros [->|?].
Qed.

(** A handler of the snapshot is called once with the message, or not at
    all when an exception ended the loop before its turn; handlers outside
    the snapshot are not called. *)
Lemma publish_invocations msg (tok : token) s h :
  let o := publish invoke msg tok s in
  (h ∈ bucket (messager s) (type_of msg) tok →
     invocations h (calls o) = [(h, msg)]
     ∨ (invocations h (calls o) = [] ∧ raised o ≠ None))
  ∧ (h ∉ bucket (messager s) (type_of msg) tok → invocations h (calls o) = []).
Proof.
  simpl. rewrite publish_eq.
  set (hs := elements (bucket (messager s) (type_of msg) tok)).
  assert (NoDup hs) as Hnd by apply NoDup_elements.
  destruct (deliver_prefix msg hs s) as (k & -> & Hall).
  assert (NoDup (take k hs)) as Hndk.
  { by apply (sublist_NoDup _ hs), sublist_take. }
  rewrite (invocations_pairs _ _ _ Hndk). split.
  - intros Hin. case_bool_decide as Hk; [by left|right]. split; [done|].
    intros Hr. apply Hk. rewrite (Hall Hr), take_ge by done.
    by apply elem_of_elements.
  - intros Hout. rewrite bool_decide_eq_false_2; [done|].
    intros Hin. apply Hout, elem_of_elements.
    by apply (subseteq_take k hs).
Qed.

(** *** Loops that return *)


(** A loop whose body returns wherever an invariant holds, and keeps it,
    returns. *)
Lemma for_each_returns_when {A} (I : State World -> Prop) (xs : list A)
    (bd : A -> action World) :
  (∀ x s, x ∈ xs → I s → raised (bd x s) = None ∧ I (final (bd x s))) →
  ∀ s, I s → raised (for_each xs bd s) = None ∧ I (final (for_each xs bd s)).
Proof.
  induction xs as [|x xs IH]; intros Hbd s Hs; simpl; [done|].
  unfold and_then.
  destruct (Hbd x s) as [Hx Hs']; [apply list_elem_of_here|done|].
  rewrite Hx. simpl. apply IH; [|done].
  intros y s' Hy. apply Hbd. by apply elem_of_cons; right.
Qed.

(** *** Loops as sequences of calls *)

Lemma for_each_fmap {A B} (f : A -> B) (xs : list A) (body : B -> action World)
    s :
  for_each (f <$> xs) body s = for_each xs (fun x => body (f x)) s.
Proof.
  revert s. induction xs as [|x xs IH]; intros s; csimpl; [done|].
  unfold and_then. destruct (raised (body (f x) s)); [done|]. by rewrite IH.
Qed.

Lemma for_each_concat {A} (ls : list (list A)) (body : A -> action World) s :
  for_each (concat ls) body s = for_each ls (fun l => for_each l body) s.
Proof.
  revert s. induction ls as [|l ls IH]; intros s; simpl; [done|].
  rewrite for_each_app. unfold and_then.
  destruct (raised (for_each l body s)); [done|]. by rewrite IH.
Qed.

Lemma for_each_ext {A} (xs : list A) (f g : A -> action World) s :
  (∀ x s', x ∈ xs → f x s' = g x s') → for_each xs f s = for_each xs g s.
Proof.
  revert s. induction xs as [|x xs IH]; intros s Hfg; simpl; [done|].
  unfold and_then. rewrite Hfg by apply list_elem_of_here.
  destruct (raised (g x s)); [done|].
  rewrite IH; [done|]. intros y s' Hy. apply Hfg. by apply elem_of_cons; right.
Qed.

(** Two loop bodies that agree on the states an invariant holds in give
    the same loop. *)
Lemma for_each_ext_inv {A} (I : State World -> Prop) (xs : list A)
    (f g : A -> action World) s :
  (∀ x s', I s' → f x s' = g x s') →
  (∀ x s', I s' → I (final (g x s'))) →
  I s → for_each xs f s = for_each xs g s.
Proof.
  intros Hfg Hinv. revert s.
  induction xs as [|x xs IH]; intros s Hs; simpl; [done|].
  unfold and_then. rewrite Hfg by done.
  destruct (raised (g x s)); [done|]. rewrite IH; [done|]. by apply Hinv.
Qed.

Lemma deliver_start m h :
  deliver invoke m h = start invoke (publish_mode h) h m.
Proof. unfold deliver, publish_mode. by destruct (iscoroutinefunction h). Qed.

Lemma send_start h m : send invoke h m = start invoke (batch_mode h) h m.
Proof. unfold send, batch_mode. by destruct (iscoroutinefunction h). Qed.

(** A loop over calls that all return. *)
Lemma for_each_returning how (cs : list call) s s' :
  returning invoke how cs s = Some s' →
  for_each cs (fun c => start invoke (how c.1) c.1 c.2) s = MkOutcome s' cs None.
Proof.
  revert s. induction cs as [|[h m] cs IH]; intros s;
    cbn [returning for_each fst snd].
  - by intros [= ->].
  - destruct (invoke (how h) h m s) as [s1 [e|]] eqn:Hh; [done|].
    intros Hrest. unfold and_then.
    replace (start invoke (how h) h m s) with (MkOutcome s1 [(h, m)] None)
      by (unfold start; by rewrite Hh).
    simpl. by rewrite (IH _ Hrest).
Qed.

(** A loop over calls of which one raises, those before it returning. *)
Lemma for_each_raising how (before rest : list call) h m s s0 s' e :
  returning invoke how before s = Some s0 →
  invoke (how h) h m s0 = (s', Some e) →
  for_each (before ++ (h, m) :: rest)
    (fun c => start invoke (how c.1) c.1 c.2) s
  = MkOutcome s' (before ++ [(h, m)]) (Some e).
Proof.
  intros Hbefore Hh. rewrite for_each_app. unfold and_then.
  rewrite (for_each_returning _ _ _ _ Hbefore).
  cbn [raised final calls for_each fst snd]. unfold and_then.
  replace (start invoke (how h) h m s0) with (MkOutcome s' [(h, m)] (Some e))
    by (unfold start; by rewrite Hh).
  done.
Qed.

(** Every run of a loop over calls is of one of these two kinds. *)
Lemma returning_cases how (cs : list call) s :
  (∃ s', returning invoke how cs s = Some s')
  ∨ (∃ before h m rest s0 s' e,
       cs = before ++ (h, m) :: rest
       ∧ returning invoke how before s = Some s0
       ∧ invoke (how h) h m s0 = (s', Some e)).
Proof.
  revert s. induction cs as [|[h m] cs IH]; intros s; simpl; [by eauto|].
  destruct (invoke (how h) h m s) as [s1 [e|]] eqn:Hh.
  - right. by exists [], h, m, cs, s, s1, e.
  - destruct (IH s1) as [?|(before & h' & m' & rest & s0 & s' & e & -> & Hb & He)];
      [by left|].
    right. exists ((h, m) :: before), h', m', rest, s0, s', e.
    split_and!; [done| |done]. simpl. by rewrite Hh.
Qed.

(** The loop of [publish] as a loop over its calls. *)
Lemma publish_flat m (tok : token) s :
  publish invoke m tok s
  = for_each ((fun h => (h, m)) <$> elements (bucket (messager s) (type_of m) tok))
      (fun c => start invoke (publish_mode c.1) c.1 c.2) s.
Proof.
  rewrite publish_eq, for_each_fmap. simpl.
  induction (elements (bucket (messager s) (type_of m) tok)) as [|h hs IH]
    in s |- *; simpl; [done|].
  unfold and_then. rewrite deliver_start.
  destruct (raised (start invoke (publish_mode h) h m s)); [done|].
  by rewrite IH.
Qed.
End DispatchFacts.

(** ** Registries reached through the API *)

Lemma stands_for_inj o c c' : stands_for o c → stands_for o c' → c = c'.
Proof. destruct o; simpl; congruence. Qed.

Lemma stands_for_twice o o' c self :
  stands_for o c → stands_for o' c → o ≠ o' →
  o ∈ subscriberSet self → o' ∈ subscriberSet self → registered_twice c self.
Proof.
  unfold registered_twice.
  destruct o as [c1|r1], o' as [c2|r2]; simpl; intros H1 H2 Hne Ho Ho'.
  - congruence.
  - subst c1. eauto.
  - subst c2. eauto.
  - unfold receive in *. congruence.
Qed.

Lemma bucket_fresh ty tok : bucket fresh_messager ty tok = ∅.
Proof. unfold bucket, by_token; simpl. by rewrite lookup_empty. Qed.

Lemma consistent_fresh : consistent fresh_messager.
Proof.
  split; intros c ty tok; try intros ty' tok' ?; rewrite bucket_fresh;
    set_solver.
Qed.

Lemma elem_of_bucket_added c ty tok o self c' ty' tok' :
  c' ∈ bucket (added c ty tok o self) ty' tok'
  ↔ c' ∈ bucket self ty' tok' ∨ (c' = c ∧ ty' = ty ∧ tok' = tok).
Proof.
  rewrite bucket_added. case_decide as Hd.
  - destruct Hd as [-> ->]. set_solver.
  - set_solver.
Qed.

Lemma elem_of_bucket_removed c ty o self c' ty' tok' :
  c' ∈ bucket (removed c ty o self) ty' tok'
  ↔ c' ∈ bucket self ty' tok' ∧ ¬ (c' = c ∧ ty' = ty).
Proof.
  rewrite bucket_removed. case_decide as Hd.
  - subst ty'. set_solver.
  - set_solver.
Qed.

Lemma consistent_added c ty tok o self :
  consistent self → stands_for o c → o ∉ subscriberSet self →
  declared_type c = Ok ty → consistent (added c ty tok o self).
Proof.
  intros [Htyped Hknown Hsingle] Hoc Hfresh Hty.
  assert (∀ ty1 tok1, c ∈ bucket self ty1 tok1 →
            registered_twice c (added c ty tok o self)) as Hboth.
  { intros ty1 tok1 Hin. destruct (Hknown _ _ _ Hin) as (o' & Ho'c & Ho').
    apply (stands_for_twice o o' c); try done.
    - intros ->. done.
    - rewrite subscriberSet_added. set_solver.
    - rewrite subscriberSet_added. set_solver. }
  split.
  - intros c' ty' tok' [Hin|(-> & -> & ->)]%elem_of_bucket_added; eauto.
  - intros c' ty' tok' [Hin|(-> & -> & ->)]%elem_of_bucket_added.
    + destruct (Hknown _ _ _ Hin) as (o' & ? & ?). exists o'.
      rewrite subscriberSet_added. set_solver.
    + exists o. rewrite subscriberSet_added. set_solver.
  - intros c' ty1 tok1 ty2 tok2 Hnot H1 H2.
    apply elem_of_bucket_added in H1, H2.
    destruct H1 as [H1|(-> & -> & ->)], H2 as [H2|(Hc & -> & ->)].
    + apply (Hsingle c'); try done.
      intros [Hc (r & Hr & Hrin)]. apply Hnot. split.
      * rewrite subscriberSet_added. set_solver.
      * exists r. rewrite subscriberSet_added. set_solver.
    + subst c'. destruct Hnot. eauto.
    + destruct Hnot. eauto.
    + done.
Qed.

Lemma consistent_removed c ty o self :
  consistent self → stands_for o c → declared_type c = Ok ty →
  consistent (removed c ty o self).
Proof.
  intros [Htyped Hknown Hsingle] Hoc Hty.
  assert (∀ c' ty' tok', c' ∈ bucket (removed c ty o self) ty' tok' →
            c' ∈ bucket self ty' tok' ∧ c' ≠ c) as Hold.
  { intros c' ty' tok' [Hin Hne]%elem_of_bucket_removed. split; [done|].
    intros ->. apply Hne. split; [done|].
    specialize (Htyped _ _ _ Hin). congruence. }
  split.
  - intros c' ty' tok' [Hin _]%Hold. eauto.
  - intros c' ty' tok' [Hin Hne]%Hold.
    destruct (Hknown _ _ _ Hin) as (o' & Ho'c & Ho'). exists o'.
    split; [done|]. rewrite subscriberSet_removed.
    apply elem_of_difference. split; [done|].
    intros Heq%elem_of_singleton. subst o'. apply Hne.
    by apply (stands_for_inj o).
  - intros c' ty1 tok1 ty2 tok2 Hnot [H1 Hne]%Hold [H2 _]%Hold.
    apply (Hsingle c'); try done.
    intros [Hc (r & Hr & Hrin)]. apply Hnot. split.
    + rewrite subscriberSet_removed. apply elem_of_difference.
      split; [done|]. intros Heq%elem_of_singleton. subst o. by apply Hne.
    + exists r. split; [done|]. rewrite subscriberSet_removed.
      apply elem_of_difference. split; [done|].
      intros Heq%elem_of_singleton. subst o. simpl in Hoc. congruence.
Qed.

Lemma consistent_same_routing a b :
  same_routing a b → consistent a → consistent b.
Proof.
  intros [Hb Hs] [Htyped Hknown Hsingle]. split.
  - intros c ty tok. rewrite <- Hb. apply Htyped.
  - intros c ty tok Hin. rewrite <- Hb in Hin.
    destruct (Hknown _ _ _ Hin) as (o & ? & ?). exists o. by rewrite <- Hs.
  - intros c ty tok ty' tok' Hnot H1 H2. rewrite <- Hb in H1, H2.
    apply (Hsingle c); try done.
    intros [H3 (r & Hr & H4)]. apply Hnot. unfold registered_twice.
    rewrite <- Hs. eauto.
Qed.

Lemma touched_same_routing ty self : same_routing self (touched ty self).
Proof.
  split; [intros ty' tok'; by rewrite bucket_touched|].
  by rewrite subscriberSet_touched.
Qed.

Lemma elem_of_bucket_registered c ty tok o self c' ty' tok' :
  c' ∈ bucket (registered c ty tok o self).1 ty' tok'
  ↔ c' ∈ bucket self ty' tok' ∨ (c' = c ∧ ty' = ty ∧ tok = Hashable tok').
Proof.
  destruct tok as [k|i]; simpl.
  - rewrite elem_of_bucket_added. naive_solver.
  - rewrite bucket_touched. naive_solver.
Qed.

Lemma subscriberSet_registered c ty tok o self o' :
  o' ∈ subscriberSet (registered c ty tok o self).1
  ↔ o' ∈ subscriberSet self ∨ (o' = o ∧ ∃ k, tok = Hashable k).
Proof.
  destruct tok as [k|i]; simpl.
  - rewrite elem_of_union, elem_of_singleton. naive_solver.
  - rewrite subscriberSet_touched. naive_solver.
Qed.

Lemma consistent_registered c ty tok o self :
  consistent self → stands_for o c → o ∉ subscriberSet self →
  declared_type c = Ok ty → consistent (registered c ty tok o self).1.
Proof.
  intros Hc Hoc Hfresh Hty. destruct tok as [k|i]; simpl.
  - by apply consistent_added.
  - apply (consistent_same_routing self); [apply touched_same_routing|done].
Qed.

Lemma consistent_perform op self :
  consistent self → consistent (perform op self).1.
Proof.
  intros Hc. destruct op as [h tok|r|h|r]; simpl.
  - rewrite subscribe_eq. case_bool_decide as Hin; [done|].
    destruct (declared_type h) as [ty|e] eqn:Hty; [|done].
    by apply consistent_registered.
  - rewrite subscribeReceiver_eq. case_bool_decide as Hin; [done|].
    destruct (declared_type (receive r)) as [ty|e] eqn:Hty; [|done].
    by apply consistent_registered.
  - rewrite unsubscribe_eq.
    destruct (declared_type h) as [ty|e] eqn:Hty; [|done]. simpl.
    by apply consistent_removed.
  - rewrite unsubscribeReceiver_eq.
    destruct (declared_type (receive r)) as [ty|e] eqn:Hty; [|done]. simpl.
    by apply consistent_removed.
Qed.

Lemma consistent_perform_all ops self :
  consistent self → consistent (perform_all ops self).
Proof.
  revert self. induction ops as [|op ops IH]; intros self Hc; [done|].
  simpl. by apply IH, consistent_perform.
Qed.

(** ** What later calls leave in place *)

Lemma keeps_bucket h op self ty tok :
  keeps h op → h ∈ bucket self ty tok → h ∈ bucket (perform op self).1 ty tok.
Proof.
  intros Hk Hin. destruct op as [h' tok'|r|h'|r]; simpl in *.
  - rewrite subscribe_eq. case_bool_decide; [done|].
    destruct (declared_type h'); [|done].
    apply elem_of_bucket_registered. by left.
  - rewrite subscribeReceiver_eq. case_bool_decide; [done|].
    destruct (declared_type (receive r)); [|done].
    apply elem_of_bucket_registered. by left.
  - rewrite unsubscribe_eq. destruct (declared_type h'); [|done]. simpl.
    apply elem_of_bucket_removed. split; [done|]. by intros [-> _].
  - rewrite unsubscribeReceiver_eq.
    destruct (declared_type (receive r)); [|done]. simpl.
    apply elem_of_bucket_removed. split; [done|]. by intros [-> _].
Qed.

Lemma keeps_bucket_all h ops self ty tok :
  Forall (keeps h) ops → h ∈ bucket self ty tok →
  h ∈ bucket (perform_all ops self) ty tok.
Proof.
  intros Hall. revert self.
  induction Hall as [|op ops Hop _ IH]; intros self Hin; [done|].
  simpl. by apply IH, keeps_bucket.
Qed.

Lemma keeps_identity h op self :
  op ≠ Unsubscribe h → ObjCallable h ∈ subscriberSet self →
  ObjCallable h ∈ subscriberSet (perform op self).1.
Proof.
  intros Hne Hin. destruct op as [h' tok'|r|h'|r]; simpl in *.
  - rewrite subscribe_eq. case_bool_decide; [done|].
    destruct (declared_type h'); [|done].
    apply subscriberSet_registered. by left.
  - rewrite subscribeReceiver_eq. case_bool_decide; [done|].
    destruct (declared_type (receive r)); [|done].
    apply subscriberSet_registered. by left.
  - rewrite unsubscribe_eq. destruct (declared_type h'); [|done]. simpl.
    apply elem_of_difference. split; [done|].
    intros Heq%elem_of_singleton. congruence.
  - rewrite unsubscribeReceiver_eq.
    destruct (declared_type (receive r)); [|done]. simpl.
    apply elem_of_difference. split; [done|].
    by intros Heq%elem_of_singleton.
Qed.

Lemma keeps_identity_all h ops self :
  Forall (fun op => op ≠ Unsubscribe h) ops →
  ObjCallable h ∈ subscriberSet self →
  ObjCallable h ∈ subscriberSet (perform_all ops self).
Proof.
  intros Hall. revert self.
  induction Hall as [|op ops Hop _ IH]; intros self Hin; [done|].
  simpl. by apply IH, keeps_identity.
Qed.

(** ** Delivery by [publish] *)

Section PublishClaims.
Context {World : Type}.
Variable invoke :
  mode -> callable -> message -> State World -> State World * option exception.

(** A subscription that returns was made with a hashable token. *)
Lemma subscribe_returns h tok self :
  (subscribe h tok self).2 = Ok tt →
  ∃ ty k, tok = Hashable k
        ∧ declared_type h = Ok ty
        ∧ (ObjCallable h ∉ subscriberSet self)
        ∧ (subscribe h tok self).1 = added h ty k (ObjCallable h) self.
Proof.
  rewrite subscribe_eq. case_bool_decide as Hin; [done|].
  destruct (declared_type h) as [ty|e]; [|done].
  destruct tok as [k|i]; [|done]. intros _. by exists ty, k.
Qed.

(** [publish] makes no call when the token is unhashable. *)
Lemma publish_calls_hashable m tok (s : State World) c :
  c ∈ calls (publish invoke m tok s) → ∃ k, tok = Hashable k.
Proof.
  destruct tok as [k|i]; [eauto|]. unfold publish; simpl.
  by intros ?%elem_of_nil.
Qed.

(** Every call made by [publish(m, tok)] passes [m] to a handler of the
    bucket of [(type(m), tok)]. *)
Lemma publish_calls_in_bucket m (tok : token) (s : State World) c :
  c ∈ calls (publish invoke m tok s) →
  c.2 = m ∧ c.1 ∈ bucket (messager s) (type_of m) tok.
Proof.
  rewrite publish_eq.
  destruct (deliver_prefix invoke m
              (elements (bucket (messager s) (type_of m) tok)) s)
    as (k & -> & _).
  intros (h & -> & Hh)%list_elem_of_fmap. split; [done|]. simpl.
  by apply elem_of_elements, (subseteq_take k).
Qed.


(** In a consistent registry, a call of [publish(m, tok')] to a handler held
    under [(ty, tok)] and not registered twice has [type(m) = ty] and
    [tok' = tok]. *)
Lemma publish_call_key self h ty tok m tok' (w : World) c :
  consistent self →
  h ∈ bucket self ty tok →
  ¬ registered_twice h self →
  c ∈ calls (publish invoke m tok' (MkState self w)) →
  c.1 = h →
  declared_type h = Ok ty ∧ type_of m = ty ∧ tok' = tok ∧ c.2 = m.
Proof.
  intros Hcons Hin Hnot Hcall Hh.
  destruct (publish_calls_hashable _ _ _ _ Hcall) as [k ->].
  apply publish_calls_in_bucket in Hcall as [Hm Hc]. simpl in Hc.
  rewrite Hh in Hc.
  destruct (bucket_single _ Hcons h _ _ _ _ Hnot Hc Hin) as [-> ->].
  split_and!; try done. by apply (bucket_typed _ Hcons h _ tok).
Qed.

(** C2, as the code has it: in a registry reached through the API, a
    handler held in the bucket of [(ty, tok)] and not registered both
    through [subscribe] and, as a bound [receive], through
    [subscribeReceiver], is called by [publish(m, tok')] only with
    [type(m) = ty], the type it declares, and [tok' = tok]; the argument is
    [m]. *)
Theorem publish_matches_type_and_token ops self h ty tok m tok' (w : World) c :
  self = perform_all ops fresh_messager →
  h ∈ bucket self ty tok →
  ¬ registered_twice h self →
  c ∈ calls (publish invoke m tok' (MkState self w)) →
  c.1 = h →
  declared_type h = Ok ty ∧ type_of m = ty ∧ tok' = tok ∧ c.2 = m.
Proof.
  intros ->. apply publish_call_key.
  apply consistent_perform_all, consistent_fresh.
Qed.

(** For a plain function the proviso is void: it is no bound method. *)
Lemma publish_matches_function ops i ps co ty tok m tok' (w : World) c :
  let h := Function i ps co in
  let self := perform_all ops fresh_messager in
  h ∈ bucket self ty tok →
  c ∈ calls (publish invoke m tok' (MkState self w)) →
  c.1 = h →
  declared_type h = Ok ty ∧ type_of m = ty ∧ tok' = tok ∧ c.2 = m.
Proof.
  intros h self Hin. apply publish_call_key; [|done|].
  - apply consistent_perform_all, consistent_fresh.
  - by intros [_ (r & Hr & _)].
Qed.

(** The type half of C2 needs no proviso: in a registry reached through the
    API every call of [publish(m, tok')] goes to a handler whose declared
    type is exactly [type(m)]. *)
Lemma publish_matches_declared_type ops m tok' (w : World) c :
  c ∈ calls (publish invoke m tok'
               (MkState (perform_all ops fresh_messager) w)) →
  declared_type c.1 = Ok (type_of m).
Proof.
  intros Hcall. destruct (publish_calls_hashable _ _ _ _ Hcall) as [k ->].
  apply publish_calls_in_bucket in Hcall as [_ Hc]. simpl in Hc.
  pose proof (consistent_perform_all ops _ consistent_fresh) as Hcons.
  by apply (bucket_typed _ Hcons _ _ k).
Qed.

(** C7: let the snapshot of [publish(m, tok)] be [pre], then [h], then
    [post]; let the handlers of [pre], called with [m] one after the other
    from the state [publish] is called in, all return and leave the state
    [s0]; and let [h], called with [m] in [s0], raise [e] and leave the
    state [s'].  Then [publish] raises [e]; its calls are those to the
    handlers of [pre] and to [h], none to a handler of [post]; and the
    state it leaves is [s']: what the handlers of [pre] and [h] did before
    the exception stays done.  And [publish], the token being hashable,
    raises in no other way: an exception it raises is the one a handler of
    the snapshot raised, the handlers before it having returned. *)
Theorem publish_propagates_handler_exception m (tok : token)
    (s : State World) :
  let o := publish invoke m tok s in
  let snapshot := elements (bucket (messager s) (type_of m) tok) in
  (∀ pre h post s0 s' e,
     snapshot = pre ++ h :: post →
     returning invoke publish_mode ((fun x => (x, m)) <$> pre) s = Some s0 →
     invoke (publish_mode h) h m s0 = (s', Some e) →
     raised o = Some e
     ∧ calls o = ((fun x => (x, m)) <$> pre) ++ [(h, m)]
     ∧ (∀ h', h' ∈ post → invocations h' (calls o) = [])
     ∧ final o = s')
  ∧ (∀ e, raised o = Some e →
       ∃ pre h post s0,
         snapshot = pre ++ h :: post
         ∧ returning invoke publish_mode ((fun x => (x, m)) <$> pre) s
           = Some s0
         ∧ invoke (publish_mode h) h m s0 = (final o, Some e)).
Proof.
  intros o snapshot. split.
  - intros pre h post s0 s' e Hsnap Hpre Hh.
    assert (o = MkOutcome s' (((fun x => (x, m)) <$> pre) ++ [(h, m)])
                  (Some e)) as ->.
    { unfold o. rewrite publish_flat. fold snapshot.
      rewrite Hsnap, fmap_app, fmap_cons.
      by apply for_each_raising with s0. }
    simpl. split_and!; try done.
    intros h' Hin.
    assert (NoDup (pre ++ h :: post)) as Hnd
      by (rewrite <- Hsnap; apply NoDup_elements).
    change [(h, m)] with ((fun x => (x, m)) <$> [h]).
    rewrite <- fmap_app, invocations_pairs.
    + rewrite bool_decide_eq_false_2; [done|].
      apply list.NoDup_app in Hnd as (_ & Hdisj & Hnd).
      apply list.NoDup_cons in Hnd as [Hh' _].
      intros [Hp|Hp%list_elem_of_singleton]%elem_of_app.
      * apply (Hdisj h' Hp). by apply elem_of_cons; right.
      * by subst h'.
    + apply (sublist_NoDup _ (pre ++ h :: post)); [done|].
      apply sublist_app; [done|]. apply sublist_skip, sublist_nil_l.
  - intros e. unfold o. rewrite publish_flat. fold snapshot.
    destruct (returning_cases invoke publish_mode
                ((fun h => (h, m)) <$> snapshot) s)
      as [[s' Hret]|(before & h & m' & rest & s0 & s' & e' & Heq & Hb & He)].
    + pose proof (for_each_returning invoke _ _ _ _ Hret) as Hr.
      unfold call in *. by rewrite Hr.
    + pose proof (for_each_raising invoke _ _ rest _ _ _ _ _ _ Hb He) as Hr.
      apply fmap_app_inv in Heq as (pre & rest' & -> & Hrest & Hsnap).
      destruct rest' as [|h0 post]; [done|].
      csimpl in Hrest. injection Hrest as -> -> ->.
      rewrite Hsnap, fmap_app, fmap_cons. unfold call in *. rewrite Hr.
      simpl. intros [= <-]. by exists pre, h0, post, s0.
Qed.
End PublishClaims.

(** ** Rejections and failures of the registry calls *)

Lemma declared_type_raises c e :
  declared_type c = Raise e →
  e = ValueError NotOneParameter ∨ e = ValueError NoAnnotation.
Proof.
  unfold declared_type.
  destruct (signature c) as [|[ty|] [|p ps]]; intros [= <-]; auto.
Qed.

(** Once [subscribe(h, tok)] has returned, and through any later registry
    calls other than [unsubscribe(h)], [subscribe(h, tok')] raises at the
    duplicate test, whatever the token, and changes nothing: the "already
    exists" [ValueError] for a handler that has a [__name__], and
    [AttributeError], from the message being built, for one that has
    none. *)
Lemma subscribe_again self h tok ops tok' :
  (subscribe h tok self).2 = Ok tt →
  Forall (fun op => op ≠ Unsubscribe h) ops →
  let self' := perform_all ops (subscribe h tok self).1 in
  subscribe h tok' self'
  = (self', Raise (if has_name h then ValueError SubscriberExists
                   else Raised "AttributeError")).
Proof.
  intros (ty & k & -> & _ & _ & Hadded)%subscribe_returns Hops self'.
  rewrite subscribe_eq, bool_decide_eq_true_2; [done|].
  apply keeps_identity_all; [done|]. rewrite Hadded, subscriberSet_added.
  set_solver.
Qed.

(** C3 at its failing inputs: a [functools.partial] object, or an instance
    with [__call__], subscribes like any handler, but subscribing it again
    raises [AttributeError] instead of the "already exists" [ValueError],
    under the same token or another one; the registry is left as it
    was. *)
Theorem subscribe_again_raises_attribute_error :
  (let first := subscribe partial_on_str None fresh_messager in
   first.2 = Ok tt
   ∧ ∀ tok', subscribe partial_on_str tok' first.1
             = (first.1, Raise (Raised "AttributeError")))
  ∧ (let first := subscribe callable_object_on_str (Some "t") fresh_messager in
     first.2 = Ok tt
     ∧ ∀ tok', subscribe callable_object_on_str tok' first.1
               = (first.1, Raise (Raised "AttributeError"))).
Proof.
  split; (split; [vm_compute; reflexivity|]); intros tok'.
  - by apply (subscribe_again fresh_messager partial_on_str None [] tok').
  - by apply (subscribe_again fresh_messager callable_object_on_str
                (Some "t") [] tok').
Qed.

(** C4, as the code has it: the identity checked by [subscribe] is the
    callable itself and the one checked by [subscribeReceiver] is the
    receiver object itself; [subscribe] of a handler that has a [__name__]
    raises the "already exists" [ValueError], leaving the registry as it
    is, exactly when the handler itself is in [subscriberSet], whatever the
    token, and [subscribeReceiver] does exactly when the receiver itself is
    in it.  The bound method [r.receive] and the receiver [r] are different
    members of the identity set.  In a registry reached through the API, a
    handler that is not registered both ways sits in one bucket at most,
    over all types and tokens. *)
Theorem duplicate_identity_rejected h r tok :
  (has_name h = true →
   ∀ self, subscribe h tok self = (self, Raise (ValueError SubscriberExists))
           ↔ ObjCallable h ∈ subscriberSet self)
  ∧ (∀ self, subscribeReceiver r self = (self, Raise (ValueError ReceiverExists))
             ↔ ObjReceiver r ∈ subscriberSet self)
  ∧ ObjCallable (receive r) ≠ ObjReceiver r
  ∧ (∀ ops ty t ty' t',
       let self := perform_all ops fresh_messager in
       ¬ registered_twice h self →
       h ∈ bucket self ty t → h ∈ bucket self ty' t' → ty = ty' ∧ t = t').
Proof.
  split_and!; [| |done|].
  - intros Hname self. rewrite subscribe_eq. simpl. rewrite Hname.
    case_bool_decide as Hin; [done|].
    split; [|done]. destruct (declared_type h) as [ty|e] eqn:Hty.
    + by destruct tok.
    + intros [= ->]. by destruct (declared_type_raises _ _ Hty).
  - intros self. rewrite subscribeReceiver_eq.
    case_bool_decide as Hin; [done|]. split; [|done].
    destruct (declared_type (receive r)) as [ty|e] eqn:Hty.
    + by destruct (receiver_token r).
    + intros [= ->]. by destruct (declared_type_raises _ _ Hty).
  - intros ops ty t ty' t' self.
    apply (bucket_single _ (consistent_perform_all ops _ consistent_fresh)).
Qed.



(** C10 at its failing inputs: [subscribe(h, token=[])] on a registry with
    no dictionary for the type of [h] raises [TypeError] when the token is
    hashed, after the empty dictionary of the type was stored, so the call
    failed and the routing table is no longer what it was; likewise
    [subscribeReceiver] of a receiver whose [token] attribute is
    unhashable. *)
Theorem failed_subscribe_leaves_type_dictionary :
  subscribers fresh_messager !! "str" = None
  ∧ (let after := subscribe (on_str 1) unhashable_token fresh_messager in
     after.2 = Raise (Raised "TypeError")
     ∧ subscribers after.1 !! "str" = Some ∅
     ∧ after.1 ≠ fresh_messager)
  ∧ (let after := subscribeReceiver receiver_unhashable fresh_messager in
     after.2 = Raise (Raised "TypeError")
     ∧ subscribers after.1 !! "str" = Some ∅
     ∧ after.1 ≠ fresh_messager).
Proof.
  assert (∀ self : Messager,
            subscribers self !! "str" = Some ∅ → self ≠ fresh_messager)
    as Hne by (by intros self Hs ->).
  split; [done|].
  split; (split; [reflexivity|]);
    (assert (∀ P Q : Prop, P → (P → Q) → P ∧ Q) as Hand by tauto);
    (apply Hand; [reflexivity|apply Hne]).
Qed.

(** Unsubscribing a handler or receiver that is not subscribed returns and
    changes nothing, when its signature passes [_get_parameter_type]. *)
Lemma unsubscribe_absent h ty self :
  declared_type h = Ok ty → absent h (ObjCallable h) self →
  unsubscribe h self = (self, Ok tt).
Proof.
  intros Hty [Hb Hs]. rewrite unsubscribe_eq, Hty.
  by rewrite removed_absent.
Qed.

Lemma unsubscribeReceiver_absent r ty self :
  declared_type (receive r) = Ok ty → absent (receive r) (ObjReceiver r) self →
  unsubscribeReceiver r self = (self, Ok tt).
Proof.
  intros Hty [Hb Hs]. rewrite unsubscribeReceiver_eq, Hty.
  by rewrite removed_absent.
Qed.

Lemma absent_fresh h o : absent h o fresh_messager.
Proof.
  split; [|set_solver]. intros ty tok. rewrite bucket_fresh. set_solver.
Qed.

(** Whatever the registry holds, a handler whose signature fails
    [_get_parameter_type] makes [unsubscribe] raise. *)
Lemma unsubscribe_rejects_signature h self e :
  declared_type h = Raise e → unsubscribe h self = (self, Raise e).
Proof. intros Hty. by rewrite unsubscribe_eq, Hty. Qed.

Lemma unsubscribeReceiver_rejects_signature r self e :
  declared_type (receive r) = Raise e →
  unsubscribeReceiver r self = (self, Raise e).
Proof. intros Hty. by rewrite unsubscribeReceiver_eq, Hty. Qed.

(** C5 at its failing inputs: [unsubscribe] and [unsubscribeReceiver] run
    [_get_parameter_type] first, so for a handler that was never subscribed
    and has two parameters, or one parameter without annotation, they raise
    [ValueError] instead of returning. *)
Theorem unsubscribe_unknown_raises :
  absent two_parameters (ObjCallable two_parameters) fresh_messager
  ∧ unsubscribe two_parameters fresh_messager
    = (fresh_messager, Raise (ValueError NotOneParameter))
  ∧ unsubscribe unannotated fresh_messager
    = (fresh_messager, Raise (ValueError NoAnnotation))
  ∧ unsubscribeReceiver receiver_two_parameters fresh_messager
    = (fresh_messager, Raise (ValueError NotOneParameter))
  ∧ unsubscribeReceiver receiver_unannotated fresh_messager
    = (fresh_messager, Raise (ValueError NoAnnotation)).
Proof. split_and!; [apply absent_fresh|reflexivity..]. Qed.

(** ** Grouping by type *)

Lemma group_of_append ty m groups ty' :
  group_of ty' (append_to_group ty m groups)
  = if decide (ty = ty') then Some (default [] (group_of ty groups) ++ [m])
    else group_of ty' groups.
Proof.
  induction groups as [|[ty0 ms] rest IH]; simpl.
  - by repeat case_decide.
  - destruct (decide (ty0 = ty)) as [->|Hne]; simpl.
    + by repeat case_decide.
    + rewrite IH. repeat case_decide; congruence.
Qed.

Lemma keys_append ty m groups :
  (append_to_group ty m groups).*1
  = if bool_decide (ty ∈ groups.*1) then groups.*1 else groups.*1 ++ [ty].
Proof.
  induction groups as [|[ty0 ms] rest IH]; [done|]. cbn [append_to_group].
  destruct (decide (ty0 = ty)) as [->|Hne]; csimpl.
  - by rewrite bool_decide_eq_true_2 by apply list_elem_of_here.
  - rewrite IH. case_bool_decide as Hin.
    + by rewrite bool_decide_eq_true_2 by (by apply elem_of_cons; right).
    + rewrite bool_decide_eq_false_2; [done|].
      rewrite elem_of_cons. intros [?|?]; congruence.
Qed.

Lemma keys_append_NoDup ty m groups :
  NoDup groups.*1 → NoDup (append_to_group ty m groups).*1.
Proof.
  intros Hnd. rewrite keys_append. case_bool_decide as Hin; [done|].
  apply list.NoDup_app. split_and!; [done| |apply NoDup_singleton].
  intros x Hx ->%list_elem_of_singleton. done.
Qed.

Lemma foldl_groups ty messages groups :
  group_of ty
    (foldl (fun groups msg => append_to_group (type_of msg) msg groups)
       groups messages)
  = extend (group_of ty groups) (of_type ty messages).
Proof.
  revert groups. induction messages as [|m l IH]; intros groups; [done|].
  simpl. rewrite IH, group_of_append. unfold of_type.
  rewrite filter_cons. destruct (decide (type_of m = ty)) as [Hm|Hm].
  - simpl. rewrite Hm. destruct (filter _ l); simpl; [done|].
    by rewrite <- app_assoc.
  - done.
Qed.

Lemma foldl_groups_NoDup messages groups :
  NoDup groups.*1 →
  NoDup (foldl (fun groups msg => append_to_group (type_of msg) msg groups)
           groups messages).*1.
Proof.
  revert groups. induction messages as [|m l IH]; intros groups Hnd; [done|].
  simpl. by apply IH, keys_append_NoDup.
Qed.

Lemma group_of_elem ty msgs groups :
  NoDup groups.*1 → ((ty, msgs) ∈ groups ↔ group_of ty groups = Some msgs).
Proof.
  induction groups as [|[ty0 ms] rest IH]; csimpl; intros Hnd.
  - split; [by intros ?%elem_of_nil|done].
  - apply list.NoDup_cons in Hnd as [Hty0 Hnd]. rewrite elem_of_cons.
    destruct (decide (ty0 = ty)) as [->|Hne].
    + split.
      * intros [[= ->]|Hin]; [done|]. destruct Hty0.
        apply list_elem_of_fmap. by exists (ty, msgs).
      * intros [= ->]. by left.
    + rewrite <- (IH Hnd). split; [|by right].
      intros [[= ? ?]|?]; [congruence|done].
Qed.

Lemma group_messages_keys messages : NoDup (group_messages messages).*1.
Proof. apply foldl_groups_NoDup. constructor. Qed.

(** The group of a type holds the messages of that type in their original
    order; types without message have no group. *)
Lemma group_messages_spec messages ty msgs :
  (ty, msgs) ∈ group_messages messages
  ↔ msgs = of_type ty messages ∧ msgs ≠ [].
Proof.
  rewrite (group_of_elem _ _ _ (group_messages_keys messages)).
  unfold group_messages. rewrite foldl_groups. simpl. unfold extend.
  destruct (of_type ty messages) as [|m l]; simpl.
  - split; [done|]. by intros [-> ?].
  - split; [by intros [= <-]|]. by intros [-> _].
Qed.

Lemma foldl_one_group ty acc messages :
  Forall (fun m => type_of m = ty) messages →
  foldl (fun groups msg => append_to_group (type_of msg) msg groups)
    [(ty, acc)] messages
  = [(ty, acc ++ messages)].
Proof.
  intros Hall. revert acc.
  induction Hall as [|m l Hm Hl IH]; intros acc; simpl.
  - by rewrite app_nil_r.
  - rewrite Hm, decide_True by done. rewrite IH. by rewrite <- app_assoc.
Qed.

Lemma group_messages_one_type ty messages :
  Forall (fun m => type_of m = ty) messages → messages ≠ [] →
  group_messages messages = [(ty, messages)].
Proof.
  intros Hall Hne. destruct messages as [|m l]; [done|].
  apply list.Forall_cons in Hall as [Hm Hl]. unfold group_messages. simpl.
  rewrite Hm. by apply (foldl_one_group ty [m] l).
Qed.

(** ** Delivery by [batch_publish] *)

Section BatchClaims.
Context {World : Type}.
Variable invoke :
  mode -> callable -> message -> State World -> State World * option exception.

Lemma batch_publish_eq messages tok s :
  batch_publish invoke messages tok s
  = for_each (group_messages messages) (dispatch_group invoke tok) s.
Proof. by destruct messages. Qed.

Lemma for_each_final {A} (I : State World -> Prop) (xs : list A)
    (body : A -> action World) :
  (∀ x s, I s → I (final (body x s))) →
  ∀ s, I s → I (final (for_each xs body s)).
Proof.
  intros Hbody. induction xs as [|x xs IH]; intros s Hs; simpl; [done|].
  unfold and_then. destruct (raised (body x s)) eqn:Hx; simpl; eauto.
Qed.

Lemma for_each_returns_inv {A} (I : State World -> Prop) (xs : list A)
    (body : A -> action World) (f : A -> list call) :
  (∀ x s, I s → I (final (body x s))) →
  (∀ x s, I s → raised (body x s) = None → calls (body x s) = f x) →
  ∀ s, I s → raised (for_each xs body s) = None →
       calls (for_each xs body s) = concat (f <$> xs).
Proof.
  intros Hinv Hbody. induction xs as [|x xs IH]; intros s Hs; simpl; [done|].
  unfold and_then. destruct (raised (body x s)) eqn:Hx; simpl.
  - by rewrite Hx.
  - intros Hrest. rewrite (Hbody x s Hs Hx), (IH _ (Hinv x s Hs) Hrest). done.
Qed.

Lemma calls_send h m s : calls (send invoke h m s) = [(h, m)].
Proof.
  unfold send, start.
  destruct (iscoroutinefunction h); by destruct (invoke _ h m s).
Qed.

Lemma final_send (I : State World -> Prop) h m s :
  (∀ how h m s, I s → I (invoke how h m s).1) → I s → I (final (send invoke h m s)).
Proof.
  intros Hinv Hs. unfold send, start.
  destruct (iscoroutinefunction h).
  - specialize (Hinv CreateTask h m s Hs).
    by destruct (invoke CreateTask h m s).
  - specialize (Hinv Inline h m s Hs). by destruct (invoke Inline h m s).
Qed.

(** A group whose delivery returns was handed whole, in order, to every
    handler of the snapshot taken for it. *)
Lemma dispatch_group_returns (tok : token) ty msgs s :
  raised (dispatch_group invoke tok (ty, msgs) s) = None →
  calls (dispatch_group invoke tok (ty, msgs) s)
  = block msgs (elements (bucket (messager s) ty tok)).
Proof.
  simpl. intros Hret. unfold block.
  apply for_each_returns; [|done].
  intros h s' Hh.
  rewrite (for_each_returns msgs _ (fun m => [(h, m)]));
    [|by intros; apply calls_send|done].
  apply concat_singletons.
Qed.

Lemma dispatch_group_final (I : State World -> Prop) tok g s :
  (∀ how h m s, I s → I (invoke how h m s).1) →
  I s → I (final (dispatch_group invoke tok g s)).
Proof.
  intros Hinv Hs. destruct g as [ty msgs]. destruct tok as [k|i]; [|done].
  simpl. apply for_each_final; [|done]. intros h s1 Hs1.
  apply for_each_final; [|done]. intros m s2 Hs2. by apply final_send.
Qed.

(** With handlers that leave the registry alone, every snapshot is the
    bucket the registry had at the call. *)
Lemma batch_publish_returns messages (tok : token) s :
  leaves_registry invoke →
  raised (batch_publish invoke messages tok s) = None →
  calls (batch_publish invoke messages tok s)
  = concat ((fun '(ty, msgs) =>
               block msgs (elements (bucket (messager s) ty tok)))
            <$> group_messages messages).
Proof.
  intros Hframe. rewrite batch_publish_eq.
  apply (for_each_returns_inv (fun s' => messager s' = messager s));
    [| |done].
  - intros g s' Hs'.
    apply (dispatch_group_final (fun s' => messager s' = messager s));
      [|done].
    intros how h m s0 <-. apply Hframe.
  - intros [ty msgs] s' <- Hret. by apply dispatch_group_returns.
Qed.

(** [batch_publish] returns when no invocation raises. *)
Lemma batch_publish_returns_when messages (tok : token) s :
  (∀ how h m s', (invoke how h m s').2 = None) →
  raised (batch_publish invoke messages tok s) = None.
Proof.
  intros Hquiet. rewrite batch_publish_eq.
  apply (for_each_returns_when (fun _ => True)); [|done].
  intros [ty msgs] s0 _ _. split; [|done]. simpl.
  apply (for_each_returns_when (fun _ => True)); [|done].
  intros h s1 _ _. split; [|done].
  apply (for_each_returns_when (fun _ => True)); [|done].
  intros m s2 _ _. split; [|done]. unfold send, start.
  destruct (iscoroutinefunction h).
  - specialize (Hquiet CreateTask h m s2).
    by destruct (invoke CreateTask h m s2) as [s3 [e|]].
  - specialize (Hquiet Inline h m s2).
    by destruct (invoke Inline h m s2) as [s3 [e|]].
Qed.

(** With handlers that leave the registry alone, [batch_publish] is one
    loop over the calls of the full delivery. *)
Lemma batch_publish_flat messages (tok : token) s :
  leaves_registry invoke →
  batch_publish invoke messages tok s
  = for_each (full_delivery (messager s) tok (group_messages messages))
      (fun c => start invoke (batch_mode c.1) c.1 c.2) s.
Proof.
  intros Hframe. rewrite batch_publish_eq. unfold full_delivery.
  rewrite for_each_concat, for_each_fmap.
  assert (∀ (cs : list call) s', messager s' = messager s →
            messager (final (for_each cs
              (fun c => start invoke (batch_mode c.1) c.1 c.2) s'))
            = messager s) as Hkeep.
  { intros cs s' Hs'.
    apply (for_each_final (fun s' => messager s' = messager s)); [|done].
    intros [h m] s1 <-. unfold start. simpl.
    specialize (Hframe (batch_mode h) h m s1).
    by destruct (invoke (batch_mode h) h m s1). }
  apply (for_each_ext_inv (fun s' => messager s' = messager s)); [| |done].
  - intros [ty msgs] s' Hs'. simpl. rewrite Hs'. unfold block.
    rewrite for_each_concat, for_each_fmap.
    apply for_each_ext. intros h s1 _. rewrite for_each_fmap. simpl.
    apply for_each_ext. intros m1 s2 _. by rewrite send_start.
  - intros [ty msgs] s' Hs'. by apply Hkeep.
Qed.

Lemma invocations_app h (cs1 cs2 : list call) :
  invocations h (cs1 ++ cs2) = invocations h cs1 ++ invocations h cs2.
Proof. apply list.filter_app. Qed.

Lemma invocations_row h x (msgs : list message) :
  invocations h ((fun m => (x, m)) <$> msgs)
  = if decide (x = h) then (fun m => (h, m)) <$> msgs else [].
Proof.
  unfold invocations. induction msgs as [|m l IHl]; csimpl.
  - by destruct (decide (x = h)).
  - rewrite filter_cons, IHl. simpl. by destruct (decide (x = h)) as [->|].
Qed.

Lemma invocations_block h msgs (hs : list callable) :
  NoDup hs →
  invocations h (block msgs hs)
  = if bool_decide (h ∈ hs) then (fun m => (h, m)) <$> msgs else [].
Proof.
  unfold block. induction 1 as [|x xs Hx Hnd IH]; [done|]. csimpl.
  rewrite invocations_app, IH, invocations_row.
  destruct (decide (x = h)) as [->|Hne].
  - rewrite (bool_decide_eq_false_2 (h ∈ xs)) by done.
    rewrite bool_decide_eq_true_2 by apply list_elem_of_here.
    by rewrite app_nil_r.
  - simpl. case_bool_decide as Hin.
    + by rewrite bool_decide_eq_true_2 by (by apply elem_of_cons; right).
    + rewrite bool_decide_eq_false_2; [done|].
      rewrite elem_of_cons. by intros [->|?].
Qed.

Lemma concat_groups {B} ty (F : list message -> list B) groups :
  F [] = [] → NoDup groups.*1 →
  concat ((fun '(ty', msgs) => if decide (ty' = ty) then F msgs else [])
          <$> groups)
  = F (default [] (group_of ty groups)).
Proof.
  intros HF. induction groups as [|[ty0 ms] rest IH]; csimpl; [done|].
  intros [Hty0 Hnd]%list.NoDup_cons.
  destruct (decide (ty0 = ty)) as [->|Hne]; simpl.
  - assert (concat ((fun '(ty', msgs) =>
              if decide (ty' = ty) then F msgs else []) <$> rest) = []) as ->;
      [|by rewrite app_nil_r].
    clear IH Hnd. induction rest as [|[ty1 ms1] rest IH]; csimpl; [done|].
    csimpl in Hty0. apply not_elem_of_cons in Hty0 as [Hne Hrest].
    rewrite decide_False by done. by rewrite IH.
  - by apply IH.
Qed.
End BatchClaims.

Section BatchOrder.
Context {World : Type}.
Variable invoke :
  mode -> callable -> message -> State World -> State World * option exception.

Lemma invocations_concat h (ls : list (list call)) :
  invocations h (concat ls) = concat (invocations h <$> ls).
Proof.
  induction ls as [|l ls IH]; csimpl; [done|].
  by rewrite invocations_app, IH.
Qed.

Lemma group_of_group_messages ty messages :
  default [] (group_of ty (group_messages messages)) = of_type ty messages.
Proof.
  unfold group_messages. rewrite foldl_groups. simpl.
  by destruct (of_type ty messages).
Qed.

Lemma batch_publish_invocations ops messages (tok : token)
    (s : State World) h ty :
  messager s = perform_all ops fresh_messager →
  leaves_registry invoke →
  raised (batch_publish invoke messages tok s) = None →
  h ∈ bucket (messager s) ty tok →
  invocations h (calls (batch_publish invoke messages tok s))
  = (fun m => (h, m)) <$> of_type ty messages.
Proof.
  intros Hreach Hframe Hret Hin.
  pose proof (consistent_perform_all ops _ consistent_fresh) as Hcons.
  rewrite <- Hreach in Hcons.
  rewrite batch_publish_returns, invocations_concat by done.
  rewrite <- list_fmap_compose.
  rewrite <- group_of_group_messages.
  rewrite <- (concat_groups ty (fmap (fun m => (h, m))));
    [|done|apply group_messages_keys].
  f_equal. apply list_fmap_ext. intros _ [ty' msgs] _. simpl.
  rewrite invocations_block by apply NoDup_elements.
  destruct (decide (ty' = ty)) as [->|Hne].
  - by rewrite bool_decide_eq_true_2 by (by apply elem_of_elements).
  - rewrite bool_decide_eq_false_2; [done|].
    intros Hin'%elem_of_elements. apply Hne.
    pose proof (bucket_typed _ Hcons _ _ _ Hin) as H1.
    pose proof (bucket_typed _ Hcons _ _ _ Hin') as H2. congruence.
Qed.

(** C6, as the code has it, for a hashable token.  The messages are
    partitioned by runtime type, one group per type present, each group
    keeping the original order; [batch_publish] runs the groups one after
    the other, and returns when no invocation raises; a group whose
    delivery returns was handed whole and in order to every handler of the
    snapshot taken for it; so, when [batch_publish] returns and the
    handlers leave the registry alone, every handler of the bucket of
    [(ty, tok)] was called with exactly the messages of type [ty] in their
    original order, and with a single subscriber and messages of its type,
    the calls are exactly the messages in order.  An exception
    ends the call at once: with handlers that leave the registry alone, when
    the calls [before] of the full delivery, made one after the other from
    the state [batch_publish] is called in, all return and leave the state
    [s0], and the next call, of [h] with [m], raises [e] in [s0] and leaves
    [s'], then [batch_publish] raises [e], has made the calls [before] and
    the call of [h] with [m] and no other, and leaves [s']. *)
Theorem batch_publish_delivers_in_order (tok : token) :
  (∀ messages,
     NoDup (group_messages messages).*1
     ∧ ∀ ty msgs, (ty, msgs) ∈ group_messages messages
                  ↔ msgs = of_type ty messages ∧ msgs ≠ [])
  ∧ (∀ messages s,
       batch_publish invoke messages tok s
       = for_each (group_messages messages) (dispatch_group invoke tok) s)
  ∧ (∀ messages s,
       (∀ how h m s', (invoke how h m s').2 = None) →
       raised (batch_publish invoke messages tok s) = None)
  ∧ (∀ ty msgs s,
       raised (dispatch_group invoke tok (ty, msgs) s) = None →
       calls (dispatch_group invoke tok (ty, msgs) s)
       = block msgs (elements (bucket (messager s) ty tok)))
  ∧ (∀ ops messages s h ty,
       messager s = perform_all ops fresh_messager →
       leaves_registry invoke →
       raised (batch_publish invoke messages tok s) = None →
       h ∈ bucket (messager s) ty tok →
       invocations h (calls (batch_publish invoke messages tok s))
       = (fun m => (h, m)) <$> of_type ty messages)
  ∧ (∀ messages s h ty,
       elements (bucket (messager s) ty tok) = [h] →
       Forall (fun m => type_of m = ty) messages →
       raised (batch_publish invoke messages tok s) = None →
       calls (batch_publish invoke messages tok s)
       = (fun m => (h, m)) <$> messages)
  ∧ (∀ messages s before h m rest s0 s' e,
       leaves_registry invoke →
       full_delivery (messager s) tok (group_messages messages)
       = before ++ (h, m) :: rest →
       returning invoke batch_mode before s = Some s0 →
       invoke (batch_mode h) h m s0 = (s', Some e) →
       let o := batch_publish invoke messages tok s in
       raised o = Some e ∧ calls o = before ++ [(h, m)] ∧ final o = s').
Proof.
  split_and!.
  - intros messages. split; [apply group_messages_keys|].
    intros ty msgs. apply group_messages_spec.
  - intros. apply batch_publish_eq.
  - intros messages s. apply batch_publish_returns_when.
  - intros ty msgs s. apply dispatch_group_returns.
  - intros ops messages s h ty. apply batch_publish_invocations.
  - intros messages s h ty Hone Hall.
    destruct messages as [|m l]; [done|].
    rewrite batch_publish_eq, (group_messages_one_type ty) by done.
    cbn [for_each]. unfold and_then.
    destruct (raised (dispatch_group invoke tok (ty, m :: l) s)) eqn:Hg;
      [by rewrite Hg|].
    intros _. rewrite (dispatch_group_returns _ _ _ _ _ Hg), Hone.
    unfold block; csimpl.
    by rewrite !app_nil_r.
  - intros messages s before h m rest s0 s' e Hframe Hall Hbefore Hh o.
    unfold o. rewrite batch_publish_flat, Hall by done.
    by rewrite (for_each_raising invoke batch_mode _ _ _ _ _ _ _ _ Hbefore Hh).
Qed.
End BatchOrder.

(** ** Completion and scheduling of coroutine handlers *)

Section AsyncioFacts.
Context {W : Type}.
Variable body : callable -> message -> State W -> State W * option exception.













End AsyncioFacts.

(** ** The singleton *)

Lemma construct_installs p :
  ∃ reg, installed (Singleton.construct p).2 reg (Singleton.construct p).1
         ∧ (Singleton.INSTANCE p = None → reg = fresh_messager).
Proof.
  unfold installed.
  destruct p as [[o|] h]; unfold Singleton.construct, Singleton.new; simpl.
  - unfold Singleton.init, Singleton.hasattr_subscribers; simpl.
    destruct (h !! o) as [[reg|]|] eqn:Ho; simpl.
    + exists reg. by split_and!.
    + exists fresh_messager. split_and!; [done| |done].
      by rewrite lookup_insert_eq.
    + exists fresh_messager. split_and!; [done| |done].
      by rewrite lookup_insert_eq.
  - unfold Singleton.init, Singleton.hasattr_subscribers; simpl.
    rewrite lookup_insert_eq; simpl. exists fresh_messager.
    split_and!; [done| |done]. by rewrite lookup_insert_eq.
Qed.

(** A method call through the installed reference is a call on the
    registry it carries. *)
Lemma method_installed {A} self reg (f : M A) p :
  installed self reg p →
  ∃ p', Singleton.method self f p = Some (p', (f reg).2)
        ∧ installed self (f reg).1 p'.
Proof.
  intros [Hi Hh]. unfold Singleton.method. rewrite Hh.
  destruct (f reg) as [reg' r]; simpl. eexists. split; [done|].
  split; [done|]. simpl. by rewrite lookup_insert_eq.
Qed.

Lemma methods_installed self reg fs p :
  installed self reg p →
  installed self (after_calls fs reg) (Singleton.methods self fs p).
Proof.
  revert reg p. induction fs as [|f fs IH]; intros reg p Hp; [done|].
  simpl. destruct (method_installed self reg f p Hp) as (p' & -> & Hp').
  simpl. by apply IH.
Qed.

Lemma construct_installed self reg p :
  installed self reg p → Singleton.construct p = (p, self).
Proof.
  intros [Hi Hh]. unfold Singleton.construct, Singleton.new. rewrite Hi.
  unfold Singleton.init, Singleton.hasattr_subscribers. by rewrite Hh.
Qed.

(** C9: the first [Messager()] installs an instance (with an empty registry
    when none existed before); after any method calls made through the
    reference it returned, another [Messager()] returns that same reference
    and leaves the whole process state as it is, so the registry read
    through the new reference is the one the calls built. *)
Theorem construct_returns_same_instance p fs :
  let first := Singleton.construct p in
  let later := Singleton.methods first.2 fs first.1 in
  ∃ reg,
    Singleton.registry_of first.2 first.1 = Some reg
    ∧ (Singleton.INSTANCE p = None → reg = fresh_messager)
    ∧ Singleton.construct later = (later, first.2)
    ∧ Singleton.registry_of (Singleton.construct later).2
        (Singleton.construct later).1 = Some (after_calls fs reg).
Proof.
  simpl. destruct (construct_installs p) as (reg & Hinst & Hfresh).
  exists reg.
  pose proof (methods_installed _ _ fs _ Hinst) as Hlater.
  rewrite (construct_installed _ _ _ Hlater). simpl.
  unfold Singleton.registry_of.
  destruct Hinst as [_ ->], Hlater as [_ ->]. done.
Qed.

(** * Concrete runs *)

Lemma leaves_registry_recording : leaves_registry recording.
Proof. intros how h m s. reflexivity. Qed.



(** [subscribeReceiver(r)] with [r.token = "a"], then
    [subscribe(r.receive, "b")]: the second call returns, and
    [publish("hi", "a")] calls the handler subscribed under ["b"]. *)
Lemma publish_reaches_handler_under_other_token :
  let h := receive receiver_a in
  let self1 := (subscribeReceiver receiver_a fresh_messager).1 in
  let self2 := (subscribe h (Some "b") self1).1 in
  (subscribeReceiver receiver_a fresh_messager).2 = Ok tt
  ∧ (subscribe h (Some "b") self1).2 = Ok tt
  ∧ declared_type h = Ok "str"
  ∧ elements (bucket self2 "str" (Some "b")) = [h]
  ∧ calls (publish quiet (VStr "hi") (Some "a") (MkState self2 tt))
    = [(h, VStr "hi")]
  ∧ Some "a" ≠ Some "b".
Proof. vm_compute. split_and!; [reflexivity..|discriminate]. Qed.

Lemma publish_matches_type_and_token_witness :
  declared_type (on_str 1) = Ok "str" ∧ type_of (VStr "hi") = "str"
  ∧ Hashable (Some "grp1") = Hashable (Some "grp1")
  ∧ (on_str 1, VStr "hi").2 = VStr "hi".
Proof.
  apply (publish_matches_type_and_token quiet
           [Subscribe (on_str 1) (Some "grp1")]
           (perform_all [Subscribe (on_str 1) (Some "grp1")] fresh_messager)
           (on_str 1) "str" (Some "grp1") (VStr "hi") (Some "grp1") tt
           (on_str 1, VStr "hi")).
  - reflexivity.
  - apply (bool_decide_unpack _). vm_compute. exact I.
  - intros [_ (r & Hr & _)]. discriminate Hr.
  - apply (bool_decide_unpack _). vm_compute. exact I.
  - reflexivity.
Defined.

(** [subscribeReceiver(r)] then [subscribe(r.receive, "b")], and
    [subscribe(r.receive, "b")] then [subscribeReceiver(r)]: in both orders
    the second call returns although [r.receive] already sits in a
    bucket. *)
Lemma receiver_and_bound_method_both_accepted :
  let h := receive receiver_a in
  let self1 := (subscribeReceiver receiver_a fresh_messager).1 in
  let self1' := (subscribe h (Some "b") fresh_messager).1 in
  (subscribeReceiver receiver_a fresh_messager).2 = Ok tt
  ∧ elements (bucket self1 "str" (Some "a")) = [h]
  ∧ (subscribe h (Some "b") self1).2 = Ok tt
  ∧ (subscribe h (Some "b") fresh_messager).2 = Ok tt
  ∧ elements (bucket self1' "str" (Some "b")) = [h]
  ∧ (subscribeReceiver receiver_a self1').2 = Ok tt.
Proof. vm_compute. split_and!; reflexivity. Qed.

Lemma duplicate_identity_rejected_witness :
  let self1 := perform_all [Subscribe (on_str 1) None] fresh_messager in
  subscribe (on_str 1) (Some "b") self1
  = (self1, Raise (ValueError SubscriberExists))
  ∧ ("str" = "str" ∧ None = (None : token)).
Proof.
  destruct (duplicate_identity_rejected (on_str 1) receiver_a (Some "b"))
    as (Hdup & _ & _ & Hone).
  split.
  - apply Hdup; [reflexivity|]. apply (bool_decide_unpack _). vm_compute.
    exact I.
  - apply (Hone [Subscribe (on_str 1) None] "str" None "str" None).
    + intros [_ (r & Hr & _)]. discriminate Hr.
    + apply (bool_decide_unpack _). vm_compute. exact I.
    + apply (bool_decide_unpack _). vm_compute. exact I.
Defined.

(** The test [batch_publish(["a", "b", "c"])] with one subscriber that
    raises: only the call with ["a"] is made. *)
Lemma batch_publish_stops_at_exception :
  let h := on_str 1 in
  let self := (subscribe h None fresh_messager).1 in
  let o := batch_publish recording [VStr "a"; VStr "b"; VStr "c"] None
             (MkState self []) in
  (subscribe h None fresh_messager).2 = Ok tt
  ∧ elements (bucket self "str" None) = [h]
  ∧ calls o = [(h, VStr "a")]
  ∧ world (final o) = [VStr "a"]
  ∧ calls o ≠ [(h, VStr "a"); (h, VStr "b"); (h, VStr "c")].
Proof. vm_compute. split_and!; [reflexivity..|discriminate]. Qed.

Lemma batch_publish_delivers_in_order_witness :
  let h := on_str 3 in
  let s := MkState
             (perform_all [Subscribe h (Some "t")] fresh_messager) [] in
  let o := batch_publish recording [VStr "a"; VInt 1; VStr "b"] (Some "t")
             (MkState registry123 []) in
  raised (batch_publish quiet [VStr "a"; VInt 1; VStr "b"] (Some "t")
            (MkState registry123 tt)) = None
  ∧ calls (dispatch_group recording (Some "t") ("str", [VStr "a"; VStr "b"]) s)
    = block [VStr "a"; VStr "b"]
        (elements (bucket (messager s) "str" (Some "t")))
  ∧ invocations h
      (calls (batch_publish recording [VStr "a"; VInt 1; VStr "b"] (Some "t") s))
    = (fun m => (h, m)) <$> of_type "str" [VStr "a"; VInt 1; VStr "b"]
  ∧ calls (batch_publish recording [VStr "a"; VStr "b"; VStr "c"] (Some "t") s)
    = (fun m => (h, m)) <$> [VStr "a"; VStr "b"; VStr "c"]
  ∧ (raised o = Some (Raised "RuntimeError")
     ∧ calls o = [(on_str 2, VStr "a"); (on_str 2, VStr "b")]
                 ++ [(on_str 1, VStr "a")]
     ∧ final o = MkState registry123 [VStr "a"; VStr "b"; VStr "a"]).
Proof.
  destruct (batch_publish_delivers_in_order quiet (Some "t"))
    as (_ & _ & Hreturns & _).
  destruct (batch_publish_delivers_in_order recording (Some "t"))
    as (_ & _ & _ & Hgroup & Heach & Hone & Habort).
  split; [|split; [|split; [|split]]].
  - apply Hreturns. intros how h m s. reflexivity.
  - apply Hgroup. vm_compute. reflexivity.
  - apply (Heach [Subscribe (on_str 3) (Some "t")]).
    + reflexivity.
    + intros how h m s. reflexivity.
    + vm_compute. reflexivity.
    + apply (bool_decide_unpack _). vm_compute. exact I.
  - apply (Hone _ _ (on_str 3) "str").
    + vm_compute. reflexivity.
    + repeat constructor.
    + vm_compute. reflexivity.
  - apply (Habort [VStr "a"; VInt 1; VStr "b"] (MkState registry123 [])
             [(on_str 2, VStr "a"); (on_str 2, VStr "b")]
             (on_str 1) (VStr "a")
             [(on_str 1, VStr "b"); (on_str 3, VStr "a"); (on_str 3, VStr "b")]
             (MkState registry123 [VStr "a"; VStr "b"])).
    + intros how h m s. reflexivity.
    + vm_compute. reflexivity.
    + reflexivity.
    + reflexivity.
Defined.

(** Three handlers of [str]; the snapshot has [on_str 2], then [on_str 1],
    which raises, then [on_str 3].  The message recorded by [on_str 2] and
    the one recorded by [on_str 1] before it raised are both in the state
    [publish] leaves. *)
Lemma publish_propagates_handler_exception_witness :
  let o := publish recording (VStr "hi") (Some "t") (MkState registry123 []) in
  raised o = Some (Raised "RuntimeError")
  ∧ calls o = ((fun x => (x, VStr "hi")) <$> [on_str 2]) ++ [(on_str 1, VStr "hi")]
  ∧ (∀ h', h' ∈ [on_str 3] → invocations h' (calls o) = [])
  ∧ final o = MkState registry123 [VStr "hi"; VStr "hi"].
Proof.
  destruct (publish_propagates_handler_exception recording (VStr "hi")
              (Some "t") (MkState registry123 [])) as [Hraises _].
  apply (Hraises [on_str 2] (on_str 1) [on_str 3]
           (MkState registry123 [VStr "hi"])).
  - vm_compute. reflexivity.
  - reflexivity.
  - reflexivity.
Defined.




(** That run in figures: [publish] from synchronous code has run both
    handlers, one of them on a loop of its own; [batch_publish] inside a
    coroutine has run the plain handler on both messages and left the two
    calls of the coroutine handler scheduled. *)
Example dispatch_of_a_mixed_bucket :
  let o := publish (asyncio_invoke storing) (VStr "hi") (Some "t")
             (synchronous_caller registry_mixed) in
  let o' := batch_publish (asyncio_invoke storing) [VStr "a"; VStr "b"]
              (Some "t") (caller_in_coroutine registry_mixed) in
  (raised o = None
   ∧ completed (world (final o))
     = [(on_str_async 6, VStr "hi"); (on_str 3, VStr "hi")]
   ∧ private_loops (world (final o)) = 1
   ∧ user (world (final o)) = [VStr "hi"; VStr "hi"])
  ∧ (raised o' = None
     ∧ scheduled (world (final o'))
       = [(on_str_async 6, VStr "a"); (on_str_async 6, VStr "b")]
     ∧ completed (world (final o'))
       = [(on_str 3, VStr "a"); (on_str 3, VStr "b")]
     ∧ user (world (final o')) = [VStr "a"; VStr "b"]).
Proof. vm_compute. split_and!; reflexivity. Qed.

(** The scenario of the specification: [f(msg: str)] under ["grp1"]. *)
Example scenario_grp1 :
  let f := on_str 3 in
  let s1 := MkState (subscribe f (Some "grp1") fresh_messager).1 [] in
  let o1 := publish recording (VStr "hi") (Some "grp1") s1 in
  let o2 := publish recording (VStr "hi") (Some "grp2") (final o1) in
  let s3 := MkState (unsubscribe f (messager (final o2))).1 (world (final o2)) in
  let o3 := publish recording (VStr "hi") (Some "grp1") s3 in
  calls o1 = [(f, VStr "hi")] ∧ calls o2 = [] ∧ calls o3 = []
  ∧ world (final o3) = [VStr "hi"].
Proof. vm_compute. split_and!; reflexivity. Qed.

(** [bool] is a subclass of [int], yet a handler of [int] does not receive
    [True]. *)
Example no_subtype_matching :
  let f := Function 4 [Some "int"] false in
  let s := MkState (subscribe f None fresh_messager).1 [] in
  calls (publish recording (VBool true) None s) = []
  ∧ calls (publish recording (VInt 1) None s) = [(f, VInt 1)].
Proof. vm_compute. split; reflexivity. Qed.

(** Two constructions at process start give one reference, and a
    subscription made through the first is read through the second. *)
Example two_constructions :
  let first := Singleton.construct Singleton.boot in
  let p := Singleton.methods first.2 [subscribe (on_str 1) None] first.1 in
  let second := Singleton.construct p in
  second.2 = first.2
  ∧ (elements ∘ (fun reg => bucket reg "str" None))
      <$> Singleton.registry_of second.2 second.1 = Some [on_str 1].
Proof. vm_compute. split; reflexivity. Qed.

(** * Further properties of the registry methods *)

(** ** One closed form for the four calls *)

Lemma perform_eq op self :
  perform op self =
    if is_subscription op
    then if bool_decide (identity op ∈ subscriberSet self)
         then (self, Raise (duplicate_exception op))
         else match declared_type (target op) with
              | Ok ty =>
                  registered (target op) ty (token_of op) (identity op) self
              | Raise e => (self, Raise e)
              end
    else match declared_type (target op) with
         | Ok ty => (removed (target op) ty (identity op) self, Ok tt)
         | Raise e => (self, Raise e)
         end.
Proof.
  destruct op as [h tok|r|h|r]; simpl.
  - apply subscribe_eq.
  - apply subscribeReceiver_eq.
  - apply unsubscribe_eq.
  - apply unsubscribeReceiver_eq.
Qed.

Lemma stands_for_identity op : stands_for (identity op) (target op).
Proof. by destruct op. Qed.

Lemma subscription_returns op self :
  is_subscription op = true → (perform op self).2 = Ok tt →
  ∃ ty, declared_type (target op) = Ok ty
        ∧ (identity op ∉ subscriberSet self)
        ∧ (perform op self).1
          = added (target op) ty (filed_under op) (identity op) self.
Proof.
  intros Hsub. rewrite perform_eq, Hsub. case_bool_decide as Hin; [done|].
  destruct (declared_type (target op)) as [ty|e]; [|done].
  unfold filed_under. destruct (token_of op) as [k|i]; [|done]. eauto.
Qed.

(** A subscription made with a hashable token files its handler under
    it. *)
Lemma registered_hashable c ty (tok : token_arg) k o self :
  tok = Hashable k → registered c ty tok o self = (added c ty k o self, Ok tt).
Proof. by intros ->. Qed.

Lemma filed_under_hashable op k : token_of op = Hashable k → filed_under op = k.
Proof. unfold filed_under. by intros ->. Qed.

Lemma unsubscription_returns op self :
  is_subscription op = false → (perform op self).2 = Ok tt →
  ∃ ty, declared_type (target op) = Ok ty
        ∧ (perform op self).1 = removed (target op) ty (identity op) self.
Proof.
  intros Hsub. rewrite perform_eq, Hsub.
  destruct (declared_type (target op)) as [ty|e]; [|done]. eauto.
Qed.

(** ** Signature check *)

(** X1: [_get_parameter_type] reads the signature and nothing else: it
    returns the annotation exactly for a signature of one annotated
    parameter, raises the arity error exactly when the number of parameters
    is not one (whatever their annotations), the annotation error exactly
    for one parameter without annotation, and never changes the registry. *)
Theorem get_parameter_type_cases c self :
  (_get_parameter_type c self).1 = self
  ∧ (∀ ty, (_get_parameter_type c self).2 = Ok ty ↔ signature c = [Some ty])
  ∧ ((_get_parameter_type c self).2 = Raise (ValueError NotOneParameter)
     ↔ length (signature c) ≠ 1)
  ∧ ((_get_parameter_type c self).2 = Raise (ValueError NoAnnotation)
     ↔ signature c = [None]).
Proof.
  unfold _get_parameter_type.
  destruct (signature c) as [|[ty|] [|p ps]]; simpl;
    (split_and!; [done|intros ty'|..]); split; intros H;
    try discriminate H; try done; try (by simplify_eq); try lia.
Qed.

(** ** Subscribing and unsubscribing *)

(** X2: a subscription that returns has put its handler in the single
    bucket of the declared type and of its token, has added its identity,
    which was not there, to the identity set, and has changed no other
    bucket membership. *)
Theorem subscription_adds_one_registration op self :
  is_subscription op = true →
  (perform op self).2 = Ok tt →
  ∃ ty, declared_type (target op) = Ok ty
    ∧ (identity op ∉ subscriberSet self)
    ∧ (∀ h ty' tok',
         h ∈ bucket (perform op self).1 ty' tok'
         ↔ h ∈ bucket self ty' tok'
           ∨ (h = target op ∧ ty' = ty ∧ tok' = filed_under op))
    ∧ subscriberSet (perform op self).1 = subscriberSet self ∪ {[identity op]}.
Proof.
  intros Hsub (ty & Hty & Hnew & ->)%subscription_returns; [|done].
  exists ty. split_and!; [done..| |done].
  intros h ty' tok'. apply elem_of_bucket_added.
Qed.

Section Unsubscription.
Context {World : Type}.
Variable invoke :
  mode -> callable -> message -> State World -> State World * option exception.

(** X3: in a registry reached through the API, an unsubscription that
    returns leaves its handler in no bucket of any type or token and its
    identity out of the identity set, keeps every other handler where it
    was, and no later [publish] on that registry calls the handler. *)
Theorem unsubscription_removes_everywhere ops op self :
  is_subscription op = false →
  self = perform_all ops fresh_messager →
  (perform op self).2 = Ok tt →
  let self' := (perform op self).1 in
  unrouted (target op) self'
  ∧ (identity op ∉ subscriberSet self')
  ∧ (∀ h ty tok, h ≠ target op →
       (h ∈ bucket self' ty tok ↔ h ∈ bucket self ty tok))
  ∧ (∀ m tok (w : World),
       invocations (target op)
         (calls (publish invoke m tok (MkState self' w))) = []).
Proof.
  intros Hsub -> (ty & Hty & Heq)%unsubscription_returns; [|done].
  simpl. rewrite Heq.
  pose proof (consistent_perform_all ops _ consistent_fresh) as Hcons.
  assert (unrouted (target op)
            (removed (target op) ty (identity op)
               (perform_all ops fresh_messager))) as Hun.
  { intros ty' tok' [Hin Hne]%elem_of_bucket_removed. apply Hne.
    split; [done|]. pose proof (bucket_typed _ Hcons _ _ _ Hin). congruence. }
  split_and!; [done| | |].
  - rewrite subscriberSet_removed. set_solver.
  - intros h ty' tok' Hne. rewrite elem_of_bucket_removed. naive_solver.
  - intros m [tok|i] w; [|done].
    by apply (publish_invocations invoke m tok (MkState _ w) (target op)).
Qed.
End Unsubscription.

(** X4: after a subscription that returned, the matching unsubscription
    returns, and then every subscription of the same identity returns
    again, under whatever hashable token, and files the handler under that
    token. *)
Theorem resubscription_after_unsubscription op op' self :
  is_subscription op = true →
  (perform op self).2 = Ok tt →
  is_subscription op' = true →
  identity op' = identity op →
  hashable (token_of op') = true →
  let s1 := (perform op self).1 in
  let s2 := (perform (undo op) s1).1 in
  ∃ ty, declared_type (target op) = Ok ty
    ∧ (perform (undo op) s1).2 = Ok tt
    ∧ (perform op' s2).2 = Ok tt
    ∧ target op ∈ bucket (perform op' s2).1 ty (filed_under op').
Proof.
  intros Hsub (ty & Hty & Hnew & Heq)%subscription_returns Hsub' Hid Hhash;
    [|done].
  simpl. rewrite Heq. exists ty.
  assert (target op' = target op) as Htg.
  { apply (stands_for_inj (identity op)); [|apply stands_for_identity].
    rewrite <- Hid. apply stands_for_identity. }
  assert (is_subscription (undo op) = false ∧ target (undo op) = target op
          ∧ identity (undo op) = identity op) as (Hu & Hut & Hui)
    by (by destruct op).
  rewrite (perform_eq (undo op)), Hu, Hut, Hui, Hty. simpl.
  rewrite (perform_eq op'), Hsub', Hid, Htg, Hty.
  unfold filed_under. destruct (token_of op') as [k|i]; [|done].
  rewrite bool_decide_eq_false_2.
  - simpl. split_and!; [done..|]. apply elem_of_bucket_added. by right.
  - rewrite subscriberSet_removed. set_solver.
Qed.

(** X5: a subscription of a handler that sat in no bucket, followed by the
    matching unsubscription, gives back the routing it started from: every
    bucket and the identity set are what they were. *)
Theorem subscription_undone op self :
  is_subscription op = true →
  unrouted (target op) self →
  (perform op self).2 = Ok tt →
  same_routing (perform (undo op) (perform op self).1).1 self.
Proof.
  intros Hsub Hun (ty & Hty & Hnew & Heq)%subscription_returns; [|done].
  rewrite Heq.
  assert (is_subscription (undo op) = false ∧ target (undo op) = target op
          ∧ identity (undo op) = identity op) as (Hu & Hut & Hui)
    by (by destruct op).
  rewrite (perform_eq (undo op)), Hu, Hut, Hui, Hty. simpl. split.
  - intros ty' tok'. rewrite bucket_removed, bucket_added.
    specialize (Hun ty' tok'). pose proof (Hun' := Hun).
    repeat case_decide; destruct_and?; subst; set_solver.
  - rewrite subscriberSet_removed, subscriberSet_added. set_solver.
Qed.

(** X6: no registry call ever deletes a key: a type that has a dictionary
    keeps one, and a token that has a bucket under a type keeps one, through
    every sequence of calls; the bucket a subscription files its handler
    under is still there after the handler is unsubscribed. *)
Theorem keys_are_never_deleted ops self ty tok :
  (is_Some (subscribers self !! ty) →
   is_Some (subscribers (perform_all ops self) !! ty))
  ∧ (is_Some (by_token self ty !! tok) →
     is_Some (by_token (perform_all ops self) ty !! tok))
  ∧ (∀ op, is_subscription op = true → (perform op self).2 = Ok tt →
           declared_type (target op) = Ok ty → filed_under op = tok →
           is_Some (by_token (perform_all (op :: ops) self) ty !! tok)).
Proof.
  assert (∀ op self,
            (is_Some (subscribers self !! ty) →
             is_Some (subscribers (perform op self).1 !! ty))
            ∧ (is_Some (by_token self ty !! tok) →
               is_Some (by_token (perform op self).1 ty !! tok))) as Hstep.
  { clear. intros op self. rewrite perform_eq.
    destruct (is_subscription op).
    - case_bool_decide; [done|].
      destruct (declared_type (target op)) as [ty0|e]; [|done].
      destruct (token_of op) as [k|i]; simpl.
      + unfold by_token, added; simpl. split.
        * destruct (decide (ty0 = ty)) as [->|Hne].
          -- by rewrite lookup_insert_eq.
          -- by rewrite lookup_insert_ne.
        * destruct (decide (ty0 = ty)) as [->|Hne].
          -- rewrite lookup_insert_eq; simpl.
             destruct (decide (k = tok)) as [->|Hne].
             ++ by rewrite lookup_insert_eq.
             ++ by rewrite lookup_insert_ne.
          -- by rewrite lookup_insert_ne.
      + unfold touched.
        destruct (has_key ty0 (subscribers self)) eqn:Hk; [done|].
        apply has_key_false in Hk. unfold by_token, set_by_token; simpl.
        destruct (decide (ty0 = ty)) as [->|Hne].
        * rewrite lookup_insert_eq, Hk. simpl. rewrite lookup_empty.
          split; [done|]. by intros [? ?].
        * by rewrite lookup_insert_ne.
    - destruct (declared_type (target op)) as [ty0|e]; [|done].
      unfold by_token, removed; simpl.
      destruct (has_key ty0 (subscribers self)) eqn:Hk; [|done].
      destruct (decide (ty0 = ty)) as [->|Hne].
      + rewrite lookup_insert_eq; simpl. split; [done|].
        unfold discard_everywhere. rewrite lookup_fmap. unfold by_token.
        by intros [b ->].
      + by rewrite lookup_insert_ne. }
  assert (∀ ops self,
            (is_Some (subscribers self !! ty) →
             is_Some (subscribers (perform_all ops self) !! ty))
            ∧ (is_Some (by_token self ty !! tok) →
               is_Some (by_token (perform_all ops self) ty !! tok))) as Hall.
  { clear -Hstep. intros ops.
    induction ops as [|op ops IH]; intros self; [done|]. simpl.
    destruct (Hstep op self), (IH (perform op self).1). auto. }
  destruct (Hall ops self). split_and!; [done..|].
  intros op Hsub (ty0 & Hty0 & _ & Heq)%subscription_returns Hty <-; [|done].
  simpl. apply Hall. rewrite Heq.
  assert (ty0 = ty) as -> by congruence.
  unfold by_token, added; simpl. rewrite lookup_insert_eq; simpl.
  by rewrite lookup_insert_eq.
Qed.

Lemma removed_twice c ty o self :
  removed c ty o (removed c ty o self) = removed c ty o self.
Proof.
  destruct self as [subs ids]. unfold removed at 1 3; simpl.
  f_equal; [|set_solver].
  destruct (has_key ty subs) eqn:Hk; simpl; [|by rewrite Hk].
  assert (has_key ty
            (<[ty := discard_everywhere c (by_token (MkMessager subs ids) ty)]>
               subs) = true) as ->.
  { unfold has_key. apply bool_decide_eq_true. by rewrite lookup_insert_eq. }
  unfold by_token at 1, removed; simpl. rewrite Hk, lookup_insert_eq; simpl.
  rewrite insert_insert_eq. f_equal.
  unfold discard_everywhere. rewrite <- map_fmap_compose.
  apply map_fmap_ext. intros tok b _. simpl.
  destruct (decide (c ∈ b)) as [Hin|Hin].
  - rewrite !(bool_decide_eq_true_2 (c ∈ b)) by done.
    rewrite bool_decide_eq_false_2; [done|]. set_solver.
  - by rewrite !(bool_decide_eq_false_2 (c ∈ b)) by done.
Qed.

(** X7: unsubscribing twice is unsubscribing once: the second call returns
    or raises as the first did and changes nothing more. *)
Theorem unsubscription_twice op self :
  is_subscription op = false →
  perform op (perform op self).1 = perform op self.
Proof.
  intros Hsub. rewrite !perform_eq, Hsub.
  destruct (declared_type (target op)) as [ty|e]; [|done]. simpl.
  by rewrite removed_twice.
Qed.


(** ** Calls about different handlers *)

Lemma perform_change op self :
  (perform op self).1 = apply_change op (chosen op self) self.
Proof.
  rewrite perform_eq. unfold chosen. destruct (is_subscription op).
  - case_bool_decide; [done|].
    destruct (declared_type (target op)); [|done].
    destruct (token_of op) eqn:Htok; simpl; [|done].
    unfold filed_under. by rewrite Htok.
  - by destruct (declared_type (target op)).
Qed.

Lemma subscriberSet_change op ch self :
  subscriberSet (apply_change op ch self)
  = match ch with
    | Nothing => subscriberSet self
    | Register _ => subscriberSet self ∪ {[identity op]}
    | Unregister _ => subscriberSet self ∖ {[identity op]}
    | Touch _ => subscriberSet self
    end.
Proof. destruct ch; try done. apply subscriberSet_touched. Qed.

Lemma elem_of_bucket_change op ch self h ty tok :
  h ∈ bucket (apply_change op ch self) ty tok
  ↔ match ch with
    | Nothing => h ∈ bucket self ty tok
    | Register ty0 =>
        h ∈ bucket self ty tok
        ∨ (h = target op ∧ ty = ty0 ∧ tok = filed_under op)
    | Unregister ty0 =>
        h ∈ bucket self ty tok ∧ ¬ (h = target op ∧ ty = ty0)
    | Touch _ => h ∈ bucket self ty tok
    end.
Proof.
  destruct ch; simpl; [done|apply elem_of_bucket_added|
                       apply elem_of_bucket_removed|by rewrite bucket_touched].
Qed.

Lemma identity_differs op1 op2 :
  target op1 ≠ target op2 → identity op1 ≠ identity op2.
Proof.
  intros Hne Heq. apply Hne.
  apply (stands_for_inj (identity op1)); [apply stands_for_identity|].
  rewrite Heq. apply stands_for_identity.
Qed.

Lemma known_after op1 op2 self :
  identity op1 ≠ identity op2 →
  bool_decide (identity op1 ∈ subscriberSet (perform op2 self).1)
  = bool_decide (identity op1 ∈ subscriberSet self).
Proof.
  intros Hne. apply bool_decide_ext.
  rewrite perform_change, subscriberSet_change.
  destruct (chosen op2 self); set_solver.
Qed.

Lemma chosen_after op1 op2 self :
  identity op1 ≠ identity op2 →
  chosen op1 (perform op2 self).1 = chosen op1 self.
Proof. intros Hne. unfold chosen. by rewrite known_after. Qed.

(** X9: two registry calls about different handlers can be made in either
    order: each returns or raises the same way whether made first or
    second, and both orders leave the same handlers in every bucket and the
    same identity set. *)
Theorem calls_on_different_handlers_commute op1 op2 self :
  target op1 ≠ target op2 →
  (perform op1 (perform op2 self).1).2 = (perform op1 self).2
  ∧ (perform op2 (perform op1 self).1).2 = (perform op2 self).2
  ∧ same_routing (perform_all [op1; op2] self) (perform_all [op2; op1] self).
Proof.
  intros Hne. pose proof (identity_differs _ _ Hne) as Hid.
  assert (∀ opa opb, identity opa ≠ identity opb →
            (perform opa (perform opb self).1).2 = (perform opa self).2)
    as Hres.
  { intros opa opb Hab. rewrite !(perform_eq opa), known_after by done.
    destruct (is_subscription opa); [|by destruct (declared_type (target opa))].
    case_bool_decide; [done|].
    destruct (declared_type (target opa)); [|done].
    by destruct (token_of opa). }
  split_and!; [by apply Hres|by apply Hres|].
  unfold perform_all; simpl.
  rewrite (perform_change op2 (perform op1 self).1),
    (perform_change op1 (perform op2 self).1).
  rewrite !chosen_after by done. rewrite !perform_change.
  split.
  - intros ty tok. apply set_eq. intros h.
    rewrite !elem_of_bucket_change.
    destruct (chosen op1 self), (chosen op2 self);
      rewrite ?elem_of_bucket_change; naive_solver.
  - rewrite !subscriberSet_change.
    destruct (chosen op1 self), (chosen op2 self);
      rewrite ?subscriberSet_change; set_solver.
Qed.

(** ** What every reachable registry satisfies *)

Lemma declared_type_Ok c ty : declared_type c = Ok ty ↔ signature c = [Some ty].
Proof.
  unfold declared_type.
  destruct (signature c) as [|[ty'|] [|p ps]]; split; intros H;
    by simplify_eq.
Qed.

Lemma functions_routed_perform op self :
  functions_routed self → functions_routed (perform op self).1.
Proof.
  intros Hr i ps co. rewrite perform_change.
  rewrite subscriberSet_change.
  pose proof (stands_for_identity op) as Hst.
  destruct (chosen op self) as [|ty0|ty0|ty0]; simpl.
  4:{ intros Hin. destruct (Hr _ _ _ Hin) as (ty & tok & Hb).
      exists ty, tok. by rewrite bucket_touched. }
  - apply Hr.
  - intros [Hin|Heq%elem_of_singleton]%elem_of_union.
    + destruct (Hr _ _ _ Hin) as (ty & tok & Hb). exists ty, tok.
      apply elem_of_bucket_added. by left.
    + exists ty0, (filed_under op). apply elem_of_bucket_added. right.
      split; [|done]. rewrite <- Heq in Hst. done.
  - intros [Hin Hne]%elem_of_difference.
    destruct (Hr _ _ _ Hin) as (ty & tok & Hb). exists ty, tok.
    apply elem_of_bucket_removed. split; [done|]. intros [Heq _].
    apply Hne, elem_of_singleton.
    destruct op as [h tok'|r|h|r]; simpl in *; try discriminate Heq;
      by subst.
Qed.

Lemma functions_routed_reachable ops :
  functions_routed (perform_all ops fresh_messager).
Proof.
  assert (∀ self, functions_routed self →
            functions_routed (perform_all ops self)) as Hall.
  { induction ops as [|op ops IH]; intros self Hr; [done|].
    simpl. by apply IH, functions_routed_perform. }
  apply Hall. intros i ps co Hin. set_solver.
Qed.

(** X10: in every registry reached through the API, a handler found in the
    bucket of a type has exactly one parameter, annotated with that type,
    and is recorded in the identity set, either itself or as the bound
    method of a recorded receiver; a plain function is in the identity set
    exactly when it sits in a bucket, and it sits in one bucket at most. *)
Theorem reachable_registry_invariants ops :
  let self := perform_all ops fresh_messager in
  (∀ h ty tok, h ∈ bucket self ty tok →
     signature h = [Some ty]
     ∧ (ObjCallable h ∈ subscriberSet self
        ∨ ∃ r, h = receive r ∧ ObjReceiver r ∈ subscriberSet self))
  ∧ (∀ i ps co,
       let f := Function i ps co in
       (ObjCallable f ∈ subscriberSet self ↔ ∃ ty tok, f ∈ bucket self ty tok)
       ∧ (∀ ty tok ty' tok',
            f ∈ bucket self ty tok → f ∈ bucket self ty' tok' →
            ty = ty' ∧ tok = tok')).
Proof.
  intros self.
  pose proof (consistent_perform_all ops _ consistent_fresh) as Hcons.
  pose proof (functions_routed_reachable ops) as Hrouted.
  fold self in Hcons, Hrouted. split.
  - intros h ty tok Hin. split.
    + by apply declared_type_Ok, (bucket_typed _ Hcons h ty tok).
    + destruct (bucket_known _ Hcons _ _ _ Hin) as ([c|r] & Hst & Ho);
        simpl in Hst; subst; eauto.
  - intros i ps co f. split.
    + split; [apply Hrouted|]. intros (ty & tok & Hin).
      by destruct (bucket_known _ Hcons _ _ _ Hin) as ([c|r] & Hst & Ho);
        simpl in Hst; subst.
    + intros ty tok ty' tok'. apply (bucket_single _ Hcons).
      by intros [_ (r & Hr & _)].
Qed.

(** ** Unsubscribing through the other method *)


(** ** Receivers *)

Section ReceiverDelivery.
Context {World : Type}.
Variable invoke :
  mode -> callable -> message -> State World -> State World * option exception.

(** X12: after [subscribeReceiver(r)] returned, and through any later
    registry calls other than an unsubscription of [r.receive], a
    [publish(m, tok)] with [type(m)] the type [r.receive] declares and [tok]
    the [token] attribute of [r] ([None] for a receiver without the
    attribute) calls [r.receive] exactly once with [m] when it returns,
    and once or, the loop having been ended earlier, not at all when it
    raises. *)
Theorem publish_invokes_receiver self r ty ops m (w : World) :
  (subscribeReceiver r self).2 = Ok tt →
  declared_type (receive r) = Ok ty →
  type_of m = ty →
  Forall (keeps (receive r)) ops →
  let tok := match token_attr r with Some t => t | None => None end in
  let o := publish invoke m tok
             (MkState (perform_all ops (subscribeReceiver r self).1) w) in
  (raised o = None → invocations (receive r) (calls o) = [(receive r, m)])
  ∧ (invocations (receive r) (calls o) = [(receive r, m)]
     ∨ (invocations (receive r) (calls o) = [] ∧ raised o ≠ None)).
Proof.
  intros Hret Hty <- Hops tok o.
  destruct (subscription_returns (SubscribeReceiver r) self eq_refl Hret)
    as (ty' & Hty' & _ & Hadded). simpl in Hty', Hadded.
  assert (∃ k, tok = Hashable k) as [k Hk].
  { revert Hret. rewrite subscribeReceiver_eq. case_bool_decide; [done|].
    destruct (declared_type (receive r)); [|done].
    fold (receiver_token r) in tok. unfold tok.
    destruct (receiver_token r); [eauto|done]. }
  assert (filed_under (SubscribeReceiver r) = k) as Hfiled.
  { unfold filed_under. simpl. fold (receiver_token r) in tok.
    fold tok. by rewrite Hk. }
  rewrite Hfiled in Hadded. unfold o. clear o. rewrite Hk. clear tok Hk Hfiled.
  assert (receive r ∈ bucket (perform_all ops (subscribeReceiver r self).1)
            (type_of m) k) as Hin.
  { apply keeps_bucket_all; [done|]. rewrite Hadded.
    apply elem_of_bucket_added. right. split_and!; [done| |done]. congruence. }
  destruct (publish_invocations invoke m k
              (MkState (perform_all ops (subscribeReceiver r self).1) w)
              (receive r)) as [Hsub _].
  specialize (Hsub Hin). simpl in Hsub. split; [|done].
  intros Hnone. by destruct Hsub as [?|[_ ?]].
Qed.
End ReceiverDelivery.

(** * Further properties of the dispatch loops *)

Section LoopFacts.
Context {World : Type}.

Lemma and_then_skip (a : action World) s : and_then a skip s = a s.
Proof.
  unfold and_then, skip. destruct (a s) as [s' cs [e|]]; simpl; [done|].
  by rewrite app_nil_r.
Qed.

Lemma for_each_nothing {A} (xs : list A) (body : A -> action World) s :
  (∀ x, x ∈ xs → body x s = MkOutcome s [] None) →
  for_each xs body s = MkOutcome s [] None.
Proof.
  induction xs as [|x xs IH]; intros Hbody; simpl; [done|].
  unfold and_then. rewrite Hbody by apply list_elem_of_here. simpl.
  rewrite IH; [done|]. intros y Hy. apply Hbody. by apply elem_of_cons; right.
Qed.

Lemma for_each_raised_calls {A} (xs : list A) (body : A -> action World) s :
  (∀ x s', calls (body x s') ≠ []) →
  raised (for_each xs body s) ≠ None → calls (for_each xs body s) ≠ [].
Proof.
  intros Hbody. destruct xs as [|x xs]; simpl; [done|]. intros _.
  unfold and_then. specialize (Hbody x s).
  destruct (raised (body x s)); simpl; [done|].
  by destruct (calls (body x s)).
Qed.

Lemma for_each_calls_Forall {A} (P : call -> Prop) (xs : list A)
    (body : A -> action World) s :
  (∀ x s', x ∈ xs → Forall P (calls (body x s'))) →
  Forall P (calls (for_each xs body s)).
Proof.
  revert s. induction xs as [|x xs IH]; intros s Hbody; simpl; [done|].
  unfold and_then.
  assert (Forall P (calls (body x s))) by apply Hbody, list_elem_of_here.
  destruct (raised (body x s)); simpl; [done|].
  apply Forall_app. split; [done|]. apply IH.
  intros y s' Hy. apply Hbody. by apply elem_of_cons; right.
Qed.

(** A loop has made a prefix of the calls of its bodies, all of them when
    it returns. *)
Lemma for_each_prefix {A} (I : State World -> Prop) (xs : list A)
    (body : A -> action World) (f : A -> list call) :
  (∀ x s, I s → I (final (body x s))) →
  (∀ x s, I s → calls (body x s) `prefix_of` f x
              ∧ (raised (body x s) = None → calls (body x s) = f x)) →
  ∀ s, I s →
    calls (for_each xs body s) `prefix_of` concat (f <$> xs)
    ∧ (raised (for_each xs body s) = None →
       calls (for_each xs body s) = concat (f <$> xs)).
Proof.
  intros Hinv Hbody. induction xs as [|x xs IH]; intros s Hs; csimpl.
  - done.
  - unfold and_then. destruct (Hbody x s Hs) as [Hpre Hall].
    destruct (raised (body x s)) eqn:Hx; simpl.
    + split; [by apply prefix_app_r|]. by rewrite Hx.
    + destruct (IH _ (Hinv x s Hs)) as [Hpre' Hall'].
      rewrite (Hall eq_refl). split; [by apply prefix_app|].
      intros Hr. by rewrite (Hall' Hr).
Qed.
End LoopFacts.

Lemma elements_none (X : gset callable) : (∀ h, h ∉ X) → elements X = [].
Proof. intros Hnone. apply elements_empty_iff. set_solver. Qed.

Section PublishFacts.
Context {World : Type}.
Variable invoke :
  mode -> callable -> message -> State World -> State World * option exception.

(** X13: whatever the handlers do, to the registry included, the calls of
    [publish(m, tok)] are calls with [m] to the handlers the bucket of
    [(type(m), tok)] held when [publish] was called, in the order of the
    snapshot and without repetition: a prefix of it when a handler raised,
    in which case at least the raising handler was called, and the whole of
    it when [publish] returns. *)
Theorem publish_calls_the_snapshot m (tok : token) (s : State World) :
  let o := publish invoke m tok s in
  let snapshot := elements (bucket (messager s) (type_of m) tok) in
  calls o `prefix_of` ((fun h => (h, m)) <$> snapshot)
  ∧ NoDup (calls o)
  ∧ (raised o = None → calls o = (fun h => (h, m)) <$> snapshot)
  ∧ (raised o ≠ None → calls o ≠ []).
Proof.
  simpl. rewrite publish_eq.
  set (hs := elements (bucket (messager s) (type_of m) tok)).
  destruct (deliver_prefix invoke m hs s) as (k & Hk & Hall).
  split_and!.
  - rewrite Hk. destruct (prefix_take hs k) as [rest Hrest].
    exists ((fun h => (h, m)) <$> rest). rewrite <- fmap_app.
    by rewrite <- Hrest.
  - rewrite Hk. apply NoDup_fmap_2; [by intros ?? [=]|].
    apply (sublist_NoDup _ hs); [apply NoDup_elements|apply sublist_take].
  - intros Hr. rewrite Hk, (Hall Hr). by rewrite take_ge.
  - apply for_each_raised_calls. intros h s'. by rewrite calls_deliver.
Qed.

(** X14: a message whose type has no handler under the token, because none
    was ever subscribed, or under another token only, or all were
    unsubscribed, is dropped silently: [publish] makes no call, raises
    nothing and leaves the state as it is. *)
Theorem publish_without_subscriber m tok (s : State World) :
  (∀ h, h ∉ bucket (messager s) (type_of m) tok) →
  publish invoke m tok s = MkOutcome s [] None.
Proof.
  intros Hnone. rewrite publish_eq.
  by rewrite elements_none.
Qed.

(** X15: likewise [batch_publish] of messages none of which has a handler
    of its type under the token makes no call, raises nothing and leaves
    the state as it is. *)
Theorem batch_publish_without_subscriber messages tok (s : State World) :
  (∀ m h, m ∈ messages → h ∉ bucket (messager s) (type_of m) tok) →
  batch_publish invoke messages tok s = MkOutcome s [] None.
Proof.
  intros Hnone. rewrite batch_publish_eq. apply for_each_nothing.
  intros [ty msgs] [-> Hne]%group_messages_spec. simpl.
  rewrite elements_none; [done|]. intros h.
  destruct (of_type ty messages) as [|m0 l] eqn:Hof; [done|].
  assert (m0 ∈ of_type ty messages) as Hm0
    by (rewrite Hof; apply list_elem_of_here).
  apply list_elem_of_filter in Hm0 as [<- Hin]. by apply Hnone.
Qed.

Lemma group_messages_cons m l : group_messages (m :: l) ≠ [].
Proof.
  intros Hnil.
  assert ((type_of m, of_type (type_of m) (m :: l)) ∈ group_messages (m :: l))
    as Hin.
  { apply group_messages_spec. split; [done|].
    unfold of_type. rewrite filter_cons. by rewrite decide_True. }
  rewrite Hnil in Hin. by apply elem_of_nil in Hin.
Qed.

(** X24: with an unhashable token [publish] raises [TypeError] when it
    looks the bucket up, and so does [batch_publish] of a list that is not
    empty, at its first group: no handler is called and the state is left
    as it is; [batch_publish] of the empty list returns before any
    lookup. *)
Theorem dispatch_with_unhashable_token i m messages (s : State World) :
  publish invoke m (Unhashable i) s = MkOutcome s [] (Some (Raised "TypeError"))
  ∧ batch_publish invoke [] (Unhashable i) s = MkOutcome s [] None
  ∧ (messages ≠ [] →
     batch_publish invoke messages (Unhashable i) s
     = MkOutcome s [] (Some (Raised "TypeError"))).
Proof.
  split_and!; [done..|]. intros Hne. rewrite batch_publish_eq.
  destruct messages as [|m0 l]; [done|].
  pose proof (group_messages_cons m0 l) as Hg.
  by destruct (group_messages (m0 :: l)) as [|[ty msgs] gs].
Qed.

(** X16: for one message and handlers that are not coroutine functions,
    [batch_publish([m], tok)] is [publish(m, tok)]: the same calls in the
    same order, the same exception if any, the same final state. *)
Theorem batch_publish_of_one_message m tok (s : State World) :
  (∀ h, h ∈ bucket (messager s) (type_of m) tok →
        iscoroutinefunction h = false) →
  batch_publish invoke [m] tok s = publish invoke m tok s.
Proof.
  intros Hsync. rewrite batch_publish_eq, publish_eq.
  unfold group_messages. simpl. rewrite and_then_skip.
  apply for_each_ext. intros h s' Hh%elem_of_elements.
  simpl. rewrite and_then_skip. unfold send, deliver.
  by rewrite (Hsync h Hh).
Qed.
End PublishFacts.

Section BatchFacts.
Context {World : Type}.
Variable invoke :
  mode -> callable -> message -> State World -> State World * option exception.

Lemma final_deliver (I : State World -> Prop) m h s :
  (∀ how h m s, I s → I (invoke how h m s).1) →
  I s → I (final (deliver invoke m h s)).
Proof.
  intros Hinv Hs. unfold deliver, start.
  destruct (iscoroutinefunction h).
  - specialize (Hinv RunUntilComplete h m s Hs).
    by destruct (invoke RunUntilComplete h m s).
  - specialize (Hinv Inline h m s Hs). by destruct (invoke Inline h m s).
Qed.

Lemma batch_publish_prefix messages (tok : token) (s : State World) :
  leaves_registry invoke →
  calls (batch_publish invoke messages tok s)
    `prefix_of` full_delivery (messager s) tok (group_messages messages)
  ∧ (raised (batch_publish invoke messages tok s) = None →
     calls (batch_publish invoke messages tok s)
     = full_delivery (messager s) tok (group_messages messages)).
Proof.
  intros Hframe. rewrite batch_publish_eq. unfold full_delivery.
  assert (∀ how h m s', messager s' = messager s →
            messager (invoke how h m s').1 = messager s) as Hkeep.
  { intros how h m s' <-. apply Hframe. }
  apply (for_each_prefix (fun s' => messager s' = messager s)); [| |done].
  - intros g s' Hs'.
    by apply (dispatch_group_final invoke (fun s' => messager s' = messager s)).
  - intros [ty msgs] s' Hs'. simpl. rewrite Hs'. unfold block.
    apply (for_each_prefix (fun s' => messager s' = messager s)); [| |done].
    + intros h s1 Hs1. apply for_each_final; [|done].
      intros m s2 Hs2.
      by apply (final_send invoke (fun s' => messager s' = messager s)).
    + intros h s1 Hs1. rewrite <- (concat_singletons (fun m => (h, m)) msgs).
      apply (for_each_prefix (fun s' => messager s' = messager s)); [| |done].
      * intros m s2 Hs2.
        by apply (final_send invoke (fun s' => messager s' = messager s)).
      * intros m s2 Hs2. by rewrite calls_send.
Qed.

(** X17: with handlers that leave the registry alone, the calls of
    [batch_publish] are a prefix of the full delivery (group after group
    in the order the types first occur, within a group handler after
    handler of the bucket, for each handler the messages of the group in
    order): complete when [batch_publish] returns, and when it raises [e],
    cut right after the call that raised [e], all the calls before it
    having returned and the state left being the one that call left; and
    the registry is the same afterwards. *)
Theorem batch_publish_makes_a_prefix messages (tok : token)
    (s : State World) :
  leaves_registry invoke →
  let o := batch_publish invoke messages tok s in
  let all := full_delivery (messager s) tok (group_messages messages) in
  calls o `prefix_of` all
  ∧ (raised o = None → calls o = all)
  ∧ (∀ e, raised o = Some e →
       ∃ before h m rest s0,
         all = before ++ (h, m) :: rest
         ∧ calls o = before ++ [(h, m)]
         ∧ returning invoke batch_mode before s = Some s0
         ∧ invoke (batch_mode h) h m s0 = (final o, Some e))
  ∧ messager (final o) = messager s.
Proof.
  intros Hframe. cbv zeta.
  destruct (batch_publish_prefix messages tok s Hframe) as [Hpre Hall].
  split_and!; [done..| |].
  - intros e. rewrite batch_publish_flat by done.
    destruct (returning_cases invoke batch_mode
                (full_delivery (messager s) tok (group_messages messages)) s)
      as [[s' Hret]|(before & h & m & rest & s0 & s' & e' & Heq & Hb & He)].
    + by rewrite (for_each_returning invoke _ _ _ _ Hret).
    + pose proof (for_each_raising invoke _ _ rest _ _ _ _ _ _ Hb He) as Hr.
      rewrite Heq. unfold call in *. rewrite Hr.
      simpl. intros [= <-]. by exists before, h, m, rest, s0.
  - rewrite batch_publish_eq.
    apply (for_each_final (fun s' => messager s' = messager s)); [|done].
    intros g s' Hs'.
    apply (dispatch_group_final invoke (fun s' => messager s' = messager s));
      [|done].
    intros how h m s0 <-. apply Hframe.
Qed.

Lemma elem_of_concat {A} (x : A) (ls : list (list A)) :
  x ∈ concat ls ↔ ∃ l, x ∈ l ∧ l ∈ ls.
Proof.
  induction ls as [|l ls IH]; simpl.
  - split; [by intros ?%elem_of_nil|]. by intros (l & _ & ?%elem_of_nil).
  - rewrite elem_of_app, IH. setoid_rewrite elem_of_cons. naive_solver.
Qed.

Lemma elem_of_full_delivery reg tok messages c :
  c ∈ full_delivery reg tok (group_messages messages) →
  c.2 ∈ messages ∧ c.1 ∈ bucket reg (type_of c.2) tok.
Proof.
  unfold full_delivery, block.
  intros (cs & Hc & ([ty msgs] & -> & Hg)%list_elem_of_fmap)%elem_of_concat.
  apply elem_of_concat in Hc
    as (row & Hc & (h & -> & Hh%elem_of_elements)%list_elem_of_fmap).
  apply list_elem_of_fmap in Hc as (m & -> & Hm). simpl.
  apply group_messages_spec in Hg as [-> _].
  apply list_elem_of_filter in Hm as [<- Hm]. done.
Qed.

(** X18: [batch_publish] never hands a handler anything but a message of
    the list; and with handlers that leave the registry alone, every call,
    also of a batch cut short by an exception, goes to a handler of the
    bucket of the message's own type and of the token given. *)
Theorem batch_publish_calls_are_routed messages (tok : token)
    (s : State World) c :
  c ∈ calls (batch_publish invoke messages tok s) →
  c.2 ∈ messages
  ∧ (leaves_registry invoke → c.1 ∈ bucket (messager s) (type_of c.2) tok).
Proof.
  intros Hc. split.
  - assert (Forall (fun c : call => c.2 ∈ messages)
              (calls (batch_publish invoke messages tok s))) as Hall;
      [|by apply (proj1 (list.Forall_forall _ _) Hall)].
    rewrite batch_publish_eq.
    apply for_each_calls_Forall.
    intros [ty msgs] s1 [-> _]%group_messages_spec. simpl.
    apply for_each_calls_Forall. intros h s2 _.
    apply for_each_calls_Forall. intros m s3 Hm.
    rewrite calls_send. apply Forall_singleton. simpl.
    by apply list_elem_of_filter in Hm as [_ Hm].
  - intros Hframe.
    destruct (batch_publish_prefix messages tok s Hframe) as [[rest Hp] _].
    apply (elem_of_full_delivery (messager s) tok messages).
    rewrite Hp. apply elem_of_app. by left.
Qed.

Lemma block_snoc msgs m (hs : list callable) :
  block (msgs ++ [m]) hs ≡ₚ block msgs hs ++ ((fun h => (h, m)) <$> hs).
Proof.
  unfold block. induction hs as [|h hs IH]; csimpl; [done|].
  rewrite IH, fmap_app. csimpl. solve_Permutation.
Qed.

Lemma full_delivery_append reg tok ty m groups :
  full_delivery reg tok (append_to_group ty m groups)
  ≡ₚ full_delivery reg tok groups
     ++ ((fun h => (h, m)) <$> elements (bucket reg ty tok)).
Proof.
  unfold full_delivery.
  induction groups as [|[ty' msgs] rest IH]; cbn [append_to_group].
  - csimpl. unfold block.
    rewrite app_nil_r, <- (concat_singletons (fun h => (h, m))).
    reflexivity.
  - destruct (decide (ty' = ty)) as [->|Hne]; csimpl.
    + rewrite block_snoc. solve_Permutation.
    + rewrite IH. by rewrite app_assoc.
Qed.

Lemma full_delivery_foldl reg tok messages groups :
  full_delivery reg tok
    (foldl (fun groups msg => append_to_group (type_of msg) msg groups)
       groups messages)
  ≡ₚ full_delivery reg tok groups
     ++ concat ((fun m => (fun h => (h, m))
                          <$> elements (bucket reg (type_of m) tok))
                <$> messages).
Proof.
  revert groups. induction messages as [|m l IH]; intros groups; csimpl.
  - by rewrite app_nil_r.
  - rewrite IH, full_delivery_append. by rewrite app_assoc.
Qed.

Lemma publish_each_returns messages (tok : token) (s : State World) :
  leaves_registry invoke →
  raised (publish_each invoke messages tok s) = None →
  calls (publish_each invoke messages tok s)
  = concat ((fun m => (fun h => (h, m))
                      <$> elements (bucket (messager s) (type_of m) tok))
            <$> messages).
Proof.
  intros Hframe. unfold publish_each.
  assert (∀ how h m s', messager s' = messager s →
            messager (invoke how h m s').1 = messager s) as Hkeep.
  { intros how h m s' <-. apply Hframe. }
  apply (for_each_returns_inv (fun s' => messager s' = messager s));
    [| |done].
  - intros m s' Hs'. rewrite publish_eq. apply for_each_final; [|done].
    intros h s1 Hs1.
    by apply (final_deliver (fun s' => messager s' = messager s)).
  - intros m s' Hs' Hret. rewrite publish_eq in *. rewrite Hs' in *.
    rewrite (for_each_returns _ _ (fun h => [(h, m)]));
      [|by intros; apply calls_deliver|done].
    apply concat_singletons.
Qed.

(** X19: with handlers that leave the registry alone, a [batch_publish]
    that returns has made the same calls, each as often, as publishing the
    messages one by one does when it returns; only the order differs
    (messages regrouped by type, and handler after handler instead of
    message after message). *)
Theorem batch_publish_same_calls_as_publishing_each messages tok
    (s : State World) :
  leaves_registry invoke →
  raised (batch_publish invoke messages tok s) = None →
  raised (publish_each invoke messages tok s) = None →
  calls (batch_publish invoke messages tok s)
  ≡ₚ calls (publish_each invoke messages tok s).
Proof.
  intros Hframe Hbatch Heach.
  destruct tok as [tok|i]; [|by destruct messages].
  destruct (batch_publish_prefix messages tok s Hframe) as [_ ->]; [|done].
  rewrite publish_each_returns by done.
  unfold group_messages. by rewrite full_delivery_foldl.
Qed.
End BatchFacts.

(** ** Grouping *)

Lemma concat_append ty m groups :
  concat (append_to_group ty m groups).*2 ≡ₚ concat groups.*2 ++ [m].
Proof.
  induction groups as [|[ty' msgs] rest IH]; cbn [append_to_group].
  - done.
  - destruct (decide (ty' = ty)) as [->|Hne]; csimpl.
    + solve_Permutation.
    + rewrite IH. by rewrite app_assoc.
Qed.

Lemma keys_foldl_prefix messages groups :
  groups.*1 `prefix_of`
    (foldl (fun groups msg => append_to_group (type_of msg) msg groups)
       groups messages).*1.
Proof.
  revert groups. induction messages as [|m l IH]; intros groups; simpl.
  - done.
  - etrans; [|apply IH]. rewrite keys_append.
    case_bool_decide; [done|]. by apply prefix_app_r.
Qed.

(** X20: grouping loses and invents nothing: the groups put end to end are
    a rearrangement of the messages, there is a group for exactly the types
    that occur, and the groups come in the order in which their types first
    occur: the groups of a list are, in order, the first groups of any
    longer list. *)
Theorem group_messages_keeps_everything messages :
  concat (group_messages messages).*2 ≡ₚ messages
  ∧ (∀ ty, ty ∈ (group_messages messages).*1
           ↔ ∃ m, m ∈ messages ∧ type_of m = ty)
  ∧ (∀ more, (group_messages messages).*1
             `prefix_of` (group_messages (messages ++ more)).*1).
Proof.
  split_and!.
  - unfold group_messages.
    assert (∀ groups,
              concat (foldl (fun groups msg =>
                               append_to_group (type_of msg) msg groups)
                        groups messages).*2
              ≡ₚ concat groups.*2 ++ messages) as Hall; [|apply (Hall [])].
    induction messages as [|m l IH]; intros groups; simpl.
    + by rewrite app_nil_r.
    + rewrite IH, concat_append. by rewrite <- app_assoc.
  - intros ty. rewrite list_elem_of_fmap. split.
    + intros ([ty' msgs] & -> & [-> Hne]%group_messages_spec). simpl.
      destruct (of_type ty' messages) as [|m0 l] eqn:Hof; [done|].
      assert (m0 ∈ of_type ty' messages) as Hm0
        by (rewrite Hof; apply list_elem_of_here).
      apply list_elem_of_filter in Hm0 as [? ?]. eauto.
    + intros (m & Hm & <-). exists (type_of m, of_type (type_of m) messages).
      split; [done|]. apply group_messages_spec. split; [done|].
      intros Hnil.
      assert (m ∈ of_type (type_of m) messages) as Hin
        by (by apply list_elem_of_filter).
      rewrite Hnil in Hin. by apply elem_of_nil in Hin.
  - intros more. unfold group_messages. rewrite foldl_app.
    apply keys_foldl_prefix.
Qed.

(** ** One instance *)

Lemma run_use_installed self reg u p :
  installed self reg p → ∃ reg', installed self reg' (run_use p u).
Proof.
  intros Hp. destruct u as [|f]; simpl.
  - rewrite (construct_installed _ _ _ Hp). eauto.
  - pose proof (methods_installed self reg [f] p Hp) as Hafter.
    destruct Hp as [Hi Hh]. rewrite Hi. eauto.
Qed.

Lemma run_use_alone u p : alone p → alone (run_use p u).
Proof.
  unfold alone. destruct p as [[self|] h]; simpl.
  - intros [reg ->].
    assert (installed self reg (Singleton.MkProcess (Some self)
                                  {[self := Some reg]})) as Hinst.
    { split; [done|]. simpl. by rewrite lookup_singleton_eq. }
    destruct u as [|f]; cbn [run_use].
    + rewrite (construct_installed _ _ _ Hinst). simpl. eauto.
    + simpl. unfold Singleton.methods, Singleton.method; simpl.
      rewrite lookup_singleton_eq.
      destruct (f reg) as [reg' r]; simpl. exists reg'.
      by rewrite insert_singleton_eq.
  - intros ->. destruct u as [|f]; simpl; [|done].
    unfold Singleton.init, Singleton.hasattr_subscribers; simpl.
    rewrite lookup_insert_eq; simpl. exists fresh_messager.
    by rewrite insert_insert_eq, insert_empty.
Qed.

(** X21: however a program mixes constructions [Messager()] and method
    calls, starting before any instance exists, at most one instance is
    ever allocated: the heap holds no instance before the first
    construction and exactly one, initialised, from then on; and the
    reference held by [_INSTANCE] never changes again. *)
Theorem one_instance_is_ever_allocated uses more :
  let p := foldl run_use Singleton.boot uses in
  alone p
  ∧ (Construct ∈ uses → is_Some (Singleton.INSTANCE p))
  ∧ (∀ self, Singleton.INSTANCE p = Some self →
       Singleton.INSTANCE (foldl run_use p more) = Some self
       ∧ ∃ reg, Singleton.heap (foldl run_use p more) = {[self := Some reg]}).
Proof.
  assert (∀ us p, alone p → alone (foldl run_use p us)) as Halone.
  { intros us. induction us as [|u us IH]; intros p Hp; [done|].
    simpl. by apply IH, run_use_alone. }
  assert (∀ us p self reg, installed self reg p →
            ∃ reg', installed self reg' (foldl run_use p us)) as Hinst.
  { intros us. induction us as [|u us IH]; intros p self reg Hp; [by eauto|].
    simpl. destruct (run_use_installed _ _ u _ Hp) as [reg' Hp']. eauto. }
  intros p. assert (alone p) as Hp by (by apply Halone).
  split_and!; [done| |].
  - unfold p. clear Hp p. intros Hin.
    apply list_elem_of_split in Hin as (us1 & us2 & ->).
    rewrite foldl_app. simpl.
    destruct (construct_installs (foldl run_use Singleton.boot us1))
      as (reg & Hreg & _).
    destruct (Hinst us2 _ _ _ Hreg) as [reg' [Hi _]]. by rewrite Hi.
  - intros self Hself. unfold alone in Hp. rewrite Hself in Hp.
    destruct Hp as [reg Hh].
    assert (installed self reg p) as Hin.
    { split; [done|]. by rewrite Hh, lookup_singleton_eq. }
    destruct (Hinst more _ _ _ Hin) as [reg' [Hi' Hh']].
    split; [done|]. pose proof (Halone more p) as Hal.
    unfold alone in Hal at 2. rewrite Hi' in Hal. apply Hal.
    unfold alone. rewrite Hself. eauto.
Qed.

(** * Further concrete runs *)

Lemma unrouted_fresh h : unrouted h fresh_messager.
Proof. intros ty tok. rewrite bucket_fresh. set_solver. Qed.

Lemma elements_registry3 :
  elements (bucket registry3 "str" (Some "t")) = [on_str 3].
Proof. vm_compute. reflexivity. Qed.



Lemma subscription_adds_one_registration_witness :
  ∃ ty, declared_type (target sub3) = Ok ty
    ∧ (identity sub3 ∉ subscriberSet fresh_messager)
    ∧ (∀ h ty' tok',
         h ∈ bucket (perform sub3 fresh_messager).1 ty' tok'
         ↔ h ∈ bucket fresh_messager ty' tok'
           ∨ (h = target sub3 ∧ ty' = ty ∧ tok' = filed_under sub3))
    ∧ subscriberSet (perform sub3 fresh_messager).1
      = subscriberSet fresh_messager ∪ {[identity sub3]}.
Proof.
  apply (subscription_adds_one_registration sub3 fresh_messager).
  - reflexivity.
  - vm_compute. reflexivity.
Defined.

Lemma unsubscription_removes_everywhere_witness :
  let self' := (perform unsub3 registry3).1 in
  unrouted (target unsub3) self'
  ∧ (identity unsub3 ∉ subscriberSet self')
  ∧ (∀ h ty tok, h ≠ target unsub3 →
       (h ∈ bucket self' ty tok ↔ h ∈ bucket registry3 ty tok))
  ∧ (∀ m tok (w : list message),
       invocations (target unsub3)
         (calls (publish recording m tok (MkState self' w))) = []).
Proof.
  apply (unsubscription_removes_everywhere recording [sub3] unsub3 registry3).
  - reflexivity.
  - reflexivity.
  - vm_compute. reflexivity.
Defined.

Lemma resubscription_after_unsubscription_witness :
  let op' := Subscribe (on_str 3) None in
  let s1 := (perform sub3 fresh_messager).1 in
  let s2 := (perform (undo sub3) s1).1 in
  ∃ ty, declared_type (target sub3) = Ok ty
    ∧ (perform (undo sub3) s1).2 = Ok tt
    ∧ (perform op' s2).2 = Ok tt
    ∧ target sub3 ∈ bucket (perform op' s2).1 ty (filed_under op').
Proof.
  apply (resubscription_after_unsubscription sub3 (Subscribe (on_str 3) None)
           fresh_messager).
  - reflexivity.
  - vm_compute. reflexivity.
  - reflexivity.
  - reflexivity.
  - reflexivity.
Defined.

Lemma subscription_undone_witness :
  same_routing (perform (undo sub3) (perform sub3 fresh_messager).1).1
    fresh_messager.
Proof.
  apply (subscription_undone sub3 fresh_messager).
  - reflexivity.
  - apply unrouted_fresh.
  - vm_compute. reflexivity.
Defined.

Lemma keys_are_never_deleted_witness :
  is_Some (by_token (perform_all [sub3; unsub3] fresh_messager) "str"
           !! Some "t").
Proof.
  destruct (keys_are_never_deleted [unsub3] fresh_messager "str" (Some "t"))
    as (_ & _ & Hkept).
  apply (Hkept sub3).
  - reflexivity.
  - vm_compute. reflexivity.
  - reflexivity.
  - reflexivity.
Defined.

Lemma unsubscription_twice_witness :
  perform unsub3 (perform unsub3 registry3).1 = perform unsub3 registry3.
Proof. apply (unsubscription_twice unsub3 registry3). reflexivity. Defined.


Lemma calls_on_different_handlers_commute_witness :
  (perform sub3 (perform sub5 fresh_messager).1).2
  = (perform sub3 fresh_messager).2
  ∧ (perform sub5 (perform sub3 fresh_messager).1).2
    = (perform sub5 fresh_messager).2
  ∧ same_routing (perform_all [sub3; sub5] fresh_messager)
      (perform_all [sub5; sub3] fresh_messager).
Proof.
  apply (calls_on_different_handlers_commute sub3 sub5 fresh_messager).
  discriminate.
Defined.


Lemma publish_invokes_receiver_witness :
  let tok := match token_attr receiver_a with Some t => t | None => None end in
  let o := publish recording (VStr "hi") tok
             (MkState
                (perform_all [sub3] (subscribeReceiver receiver_a fresh_messager).1)
                []) in
  (raised o = None →
   invocations (receive receiver_a) (calls o) = [(receive receiver_a, VStr "hi")])
  ∧ (invocations (receive receiver_a) (calls o)
     = [(receive receiver_a, VStr "hi")]
     ∨ (invocations (receive receiver_a) (calls o) = [] ∧ raised o ≠ None)).
Proof.
  apply (publish_invokes_receiver recording fresh_messager receiver_a "str"
           [sub3] (VStr "hi") []).
  - vm_compute. reflexivity.
  - reflexivity.
  - reflexivity.
  - repeat constructor.
Defined.

Lemma publish_without_subscriber_witness :
  publish recording (VStr "hi") (Some "t") (MkState fresh_messager [])
  = MkOutcome (MkState fresh_messager []) [] None.
Proof.
  apply (publish_without_subscriber recording (VStr "hi") (Some "t")
           (MkState fresh_messager [])).
  intros h. apply unrouted_fresh.
Defined.

Lemma batch_publish_without_subscriber_witness :
  batch_publish recording [VStr "a"; VInt 1] (Some "t")
    (MkState fresh_messager [])
  = MkOutcome (MkState fresh_messager []) [] None.
Proof.
  apply (batch_publish_without_subscriber recording [VStr "a"; VInt 1]
           (Some "t") (MkState fresh_messager [])).
  intros m h _. apply unrouted_fresh.
Defined.

Lemma batch_publish_of_one_message_witness :
  batch_publish recording [VStr "a"] (Some "t") (MkState registry3 [])
  = publish recording (VStr "a") (Some "t") (MkState registry3 []).
Proof.
  apply (batch_publish_of_one_message recording (VStr "a") (Some "t")
           (MkState registry3 [])).
  intros h Hh%elem_of_elements. simpl in Hh.
  rewrite elements_registry3 in Hh.
  apply list_elem_of_singleton in Hh. by subst h.
Defined.

(** Three handlers of which the second of the snapshot raises: the batch
    is cut after its first call. *)
Lemma batch_publish_makes_a_prefix_witness :
  let s := MkState registry123 [] in
  let o := batch_publish recording [VStr "a"; VInt 1; VStr "b"] (Some "t") s in
  let all := full_delivery (messager s) (Some "t")
               (group_messages [VStr "a"; VInt 1; VStr "b"]) in
  calls o `prefix_of` all
  ∧ (raised o = None → calls o = all)
  ∧ (∀ e, raised o = Some e →
       ∃ before h m rest s0,
         all = before ++ (h, m) :: rest
         ∧ calls o = before ++ [(h, m)]
         ∧ returning recording batch_mode before s = Some s0
         ∧ recording (batch_mode h) h m s0 = (final o, Some e))
  ∧ messager (final o) = messager s.
Proof.
  apply (batch_publish_makes_a_prefix recording
           [VStr "a"; VInt 1; VStr "b"] (Some "t") (MkState registry123 [])).
  apply leaves_registry_recording.
Defined.

Lemma batch_publish_calls_are_routed_witness :
  (on_str 3, VStr "b").2 ∈ [VStr "a"; VInt 1; VStr "b"]
  ∧ (leaves_registry recording →
     (on_str 3, VStr "b").1
     ∈ bucket registry35 (type_of (on_str 3, VStr "b").2) (Some "t")).
Proof.
  apply (batch_publish_calls_are_routed recording
           [VStr "a"; VInt 1; VStr "b"] (Some "t") (MkState registry35 [])
           (on_str 3, VStr "b")).
  apply (bool_decide_unpack _). vm_compute. exact I.
Defined.

Lemma batch_publish_same_calls_as_publishing_each_witness :
  calls (batch_publish recording [VStr "a"; VInt 1; VStr "b"] (Some "t")
           (MkState registry35 []))
  ≡ₚ calls (publish_each recording [VStr "a"; VInt 1; VStr "b"] (Some "t")
              (MkState registry35 [])).
Proof.
  apply (batch_publish_same_calls_as_publishing_each recording
           [VStr "a"; VInt 1; VStr "b"] (Some "t") (MkState registry35 [])).
  - apply leaves_registry_recording.
  - vm_compute. reflexivity.
  - vm_compute. reflexivity.
Defined.

(** The two orders on that input: by handler and by type for
    [batch_publish], by message for the loop of [publish]. *)
Example batch_order_differs :
  let s := MkState registry35 [] in
  let msgs := [VStr "a"; VInt 1; VStr "b"] in
  (fun c : call => c.2) <$> calls (batch_publish recording msgs (Some "t") s)
  = [VStr "a"; VStr "b"; VStr "a"; VStr "b"]
  ∧ (fun c : call => c.2) <$> calls (publish_each recording msgs (Some "t") s)
    = [VStr "a"; VStr "a"; VStr "b"; VStr "b"].
Proof. vm_compute. split; reflexivity. Qed.
